(** * Helldivers 2 slot machine: the reel samplers

    A shallow embedding of the selection logic of [SlotMachine]
    (assets/site/js/slot.js and its strict-mode revision): the
    constraint-aware stratagem sampler [_pickStratagemsWithConstraints],
    the group-partitioned sampler of [spin]/[seed] and the plain unique
    sampler, together with the properties the specification states about
    them. *)

From Stdlib Require Import ZArith Ascii String.
From stdpp Require Import base option list strings gmap.
From Equations Require Import Equations.

Local Open Scope string_scope.
Local Open Scope list_scope.

(** ** JavaScript values and rows *)

(** A cell read from a row is either a string or [undefined]
    (csv.js stores strings only; a header that is absent reads as
    [undefined]). *)
Inductive JsVal : Type :=
| JUndefined
| JStr (s : string).

(** A row object produced by [parseCsv]: the heap reference of the object
    and its own properties (header -> cell). *)
Record Item : Type := mkItem {
  ref : nat;
  fields : gmap string string
}.

#[global] Instance Item_eq_dec : EqDecision Item.
Proof. solve_decision. Defined.

(** [x[k]] on a row, for an own cell or a name that is not inherited
    ([bucketKey] and [reelDataGet] below treat the names of [protoNames]). *)
Definition getField (x : Item) (k : string) : JsVal :=
  match fields x !! k with
  | Some s => JStr s
  | None => JUndefined
  end.

(** The names every object inherits from [Object.prototype]: under each
    of them an object without an own property of that name reads a function
    (the prototype object itself under [__proto__]), not [undefined]. *)
Definition protoNames : list string :=
  [ "constructor"; "hasOwnProperty"; "isPrototypeOf"; "propertyIsEnumerable";
    "toLocaleString"; "toString"; "valueOf"; "__proto__";
    "__defineGetter__"; "__defineSetter__";
    "__lookupGetter__"; "__lookupSetter__" ].

(** [x[k]] where [x] may be [null]/[undefined] ([None]): reading a
    property of [undefined] throws a TypeError ([None]). *)
Definition prop (x : option Item) (k : string) : option JsVal :=
  match x with
  | Some it => Some (getField it k)
  | None => None
  end.

(** Truthiness: [undefined] and [''] are falsy. *)
Definition js_truthy (v : JsVal) : bool :=
  match v with
  | JUndefined => false
  | JStr s => negb (String.eqb s "")
  end.

(** [v || d] *)
Definition js_or (v d : JsVal) : JsVal :=
  if js_truthy v then v else d.

(** [String(v)] *)
Definition js_String (v : JsVal) : string :=
  match v with
  | JUndefined => "undefined"
  | JStr s => s
  end.

(** [String.prototype.toLowerCase] on ASCII text: the letters A to Z are
    lower-cased. A string is read as ASCII text ([asciiText] below); the
    built-in also lower-cases the cased letters beyond ASCII, which this
    definition leaves as they are, so a statement that depends on the lower
    case of a cell other than through a comparison with an ASCII constant
    assumes the cell to be ASCII text. *)
Definition lower_ascii (c : ascii) : ascii :=
  let n := nat_of_ascii c in
  if (65 <=? n)%nat && (n <=? 90)%nat then ascii_of_nat (n + 32) else c.

Fixpoint toLowerCase (s : string) : string :=
  match s with
  | EmptyString => EmptyString
  | String c s' => String (lower_ascii c) (toLowerCase s')
  end.

(** [v.toLowerCase()] as a method call: a TypeError on [undefined]. *)
Definition call_toLowerCase (v : JsVal) : option string :=
  match v with
  | JUndefined => None
  | JStr s => Some (toLowerCase s)
  end.

(** [arr.filter(p)] with a callback that may throw: the first exception
    aborts the traversal. *)
Fixpoint js_filter {A} (p : A → option bool) (l : list A) : option (list A) :=
  match l with
  | [] => Some []
  | x :: l' =>
      b ← p x;
      r ← js_filter p l';
      Some (if b : bool then x :: r else r)
  end.

(** ** The random source *)

(** One result of [Math.random()]: the rational [num / (num + gap + 1)],
    which lies in [0, 1). *)
Record Sample : Type := mkSample { num : nat; gap : nat }.

(** [Math.floor(u * len)] *)
Definition floorScale (u : Sample) (len : nat) : nat :=
  (num u * len) `div` (num u + gap u + 1).

Section Sampler.

(** The [k]-th call of [Math.random()] returns [rng k]; the samplers
    thread the number of calls made so far. *)
Variable rng : nat → Sample.

(** [Math.floor(Math.random() * len)] at call number [cur]. *)
Definition randomIndex (len cur : nat) : nat := floorScale (rng cur) len.

(** *** [satisfies] (nested in [_pickStratagemsWithConstraints]) *)

Definition isBackpack (x : option Item) : option bool :=
  v ← prop x "Has Backpack";
  Some (String.eqb (toLowerCase (js_String (js_or v (JStr "")))) "true").

Definition isSupport (x : option Item) : option bool :=
  v ← prop x "Type";
  s ← call_toLowerCase (js_or v (JStr ""));
  Some (String.eqb s "support weapon").

Definition isNonExpendable (x : option Item) : option bool :=
  v ← prop x "Subtype";
  s ← call_toLowerCase (js_or v (JStr ""));
  Some (negb (String.eqb s "expendable")).

Definition satisfies (items : list (option Item)) : option bool :=
  backpack ← js_filter isBackpack items;
  if (1 <? length backpack)%nat then Some false else
  support ← js_filter isSupport items;
  nonExpendableSupport ← js_filter isNonExpendable support;
  if (1 <? length nonExpendableSupport)%nat then Some false else
  Some true.

(** *** The retry loop *)

(** The inner [for (let i = 0; i < count; i++)] of one attempt, with [n]
    iterations left: [temp.splice(idx, 1)[0]] is [temp !! idx] and leaves
    [delete idx temp]. *)
Fixpoint drawUnique (n : nat) (temp : list Item) (pick : list (option Item))
    (cur : nat) : list (option Item) * nat :=
  match n with
  | O => (pick, cur)
  | S n' =>
      match temp with
      | [] => (pick, cur)
      | _ :: _ =>
          let idx := randomIndex (length temp) cur in
          drawUnique n' (delete idx temp) (pick ++ [temp !! idx]) (S cur)
      end
  end.

(** [for (let attempt = 0; attempt < MAX_TRIES; attempt++)], with
    [attempts] iterations left. [Some (Some pick, cur)] is the early
    [return pick]; [Some (None, cur)] falls through to the fallback; [None]
    is an exception thrown by [satisfies]. *)
Fixpoint retry (attempts : nat) (pool : list Item) (count : Z) (cur : nat)
    : option (option (list (option Item)) * nat) :=
  match attempts with
  | O => Some (None, cur)
  | S a =>
      let '(pick, cur') := drawUnique (Z.to_nat count) pool [] cur in
      if (Z.of_nat (length pick) =? count)%Z then
        ok ← satisfies pick;
        if ok : bool then Some (Some pick, cur') else retry a pool count cur'
      else retry a pool count cur'
  end.

(** *** The greedy fallback *)

Equations? greedy (count : Z) (result : list (option Item))
    (remaining : list Item) (cur : nat)
    : option (list (option Item) * nat) by wf (length remaining) lt :=
  greedy count result [] cur := Some (result, cur);
  greedy count result (r :: rs) cur with (Z.of_nat (length result) <? count)%Z := {
    | false := Some (result, cur)
    | true :=
        let idx := randomIndex (length (r :: rs)) cur in
        let cand := (r :: rs) !! idx in
        let remaining' := delete idx (r :: rs) in
        match satisfies (result ++ [cand]) with
        | None => None
        | Some ok =>
            let result' := if ok : bool then result ++ [cand] else result in
            if bool_decide (remaining' = [])
               && (Z.of_nat (length result') <? count)%Z
            then Some (result', S cur)
            else greedy count result' remaining' (S cur)
        end
    }.
Proof.
  unfold remaining', idx, randomIndex, floorScale.
  rewrite length_delete; [simpl; lia|].
  apply lookup_lt_is_Some_2, Nat.Div0.div_lt_upper_bound.
  simpl length. nia.
Defined.

(** [while (result.length < count) result.push(null)] *)
Equations? padNulls (count : Z) (result : list (option Item))
    : list (option Item)
    by wf (Z.to_nat (count - Z.of_nat (length result))) lt :=
  padNulls count result with decide (Z.of_nat (length result) < count)%Z := {
    | left _ := padNulls count (result ++ [None])
    | right _ := result
    }.
Proof. rewrite length_app. simpl. lia. Defined.

(** *** [_pickStratagemsWithConstraints(source, count)] *)

Definition MAX_TRIES : nat := 200.

Definition _pickStratagemsWithConstraints (source : list Item) (count : Z)
    (cur : nat) : option (list (option Item) * nat) :=
  let pool := source in
  if (count <=? 0)%Z then Some ([], cur) else
  '(found, cur1) ← retry MAX_TRIES pool count cur;
  match found with
  | Some pick => Some (pick, cur1)
  | None =>
      '(result, cur2) ← greedy count [] pool cur1;
      Some (padNulls count result, cur2)
  end.

(** *** The plain unique sampler

    [cfgs.forEach(() => { if (!pool.length) return picks.push(null); ... })]
    with [n] reels left. *)
Fixpoint sampleUnique (n : nat) (pool : list Item) (picks : list (option Item))
    (cur : nat) : list (option Item) * nat :=
  match n with
  | O => (picks, cur)
  | S n' =>
      match pool with
      | [] => sampleUnique n' pool (picks ++ [None]) cur
      | _ :: _ =>
          let i := randomIndex (length pool) cur in
          sampleUnique n' (delete i pool) (picks ++ [pool !! i]) (S cur)
      end
  end.

(** *** The group-partitioned sampler *)

(** The [Map] of buckets, in insertion order. *)
Definition Buckets : Type := list (string * list Item).

Fixpoint buckets_get (buckets : Buckets) (k : string) : option (list Item) :=
  match buckets with
  | [] => None
  | (k', arr) :: rest => if String.eqb k' k then Some arr else buckets_get rest k
  end.

Definition buckets_has (buckets : Buckets) (k : string) : bool :=
  match buckets_get buckets k with Some _ => true | None => false end.

(** [Map.prototype.set]: an existing key keeps its position. *)
Fixpoint buckets_set (buckets : Buckets) (k : string) (arr : list Item)
    : Buckets :=
  match buckets with
  | [] => [(k, arr)]
  | (k', arr') :: rest =>
      if String.eqb k' k then (k', arr) :: rest
      else (k', arr') :: buckets_set rest k arr
  end.

(** [(item[field] || '').toLowerCase()]. On a row without an own cell
    [field], a name of [protoNames] reads a function (or the prototype
    object): it is truthy and has no [toLowerCase], so the call throws a
    TypeError ([None]). *)
Definition bucketKey (field : string) (item : Item) : option string :=
  if bool_decide (field ∈ protoNames ∧ fields item !! field = None) then None
  else call_toLowerCase (js_or (getField item field) (JStr "")).

(** The body of [source.forEach(item => ...)]: [buckets.get(key).push(item)]
    updates the array stored under [key] in place. *)
Definition addToBucket (field : string) (buckets : Buckets) (item : Item)
    : option Buckets :=
  key ← bucketKey field item;
  if negb (js_truthy (JStr key)) then Some buckets else
  let buckets1 :=
    if negb (buckets_has buckets key) then buckets_set buckets key []
    else buckets in
  arr ← buckets_get buckets1 key;
  Some (buckets_set buckets1 key (arr ++ [item])).

Fixpoint buildBuckets (field : string) (source : list Item) (buckets : Buckets)
    : option Buckets :=
  match source with
  | [] => Some buckets
  | item :: rest =>
      buckets' ← addToBucket field buckets item;
      buildBuckets field rest buckets'
  end.

(** The loop over the reels of the group ([for (let i = 0; i < cfgs.length;
    i++)] in [spin], [cfgs.forEach] in [seed]), with [n] reels left.
    [buckets.get(k) || []] is [[]] when [k] is not a key. *)
Fixpoint groupLoop (n : nat) (buckets : Buckets) (keys : list string)
    (picks : list (option Item)) (cur : nat) : list (option Item) * nat :=
  match n with
  | O => (picks, cur)
  | S n' =>
      match keys with
      | [] => groupLoop n' buckets keys (picks ++ [None]) cur
      | _ :: _ =>
          let kIdx := randomIndex (length keys) cur in
          let k := keys !! kIdx in
          let keys' := delete kIdx keys in
          let arr := default [] (k ≫= buckets_get buckets) in
          match arr with
          | [] => groupLoop n' buckets keys' (picks ++ [None]) (S cur)
          | _ :: _ =>
              let i := randomIndex (length arr) (S cur) in
              groupLoop n' buckets keys' (picks ++ [arr !! i]) (S (S cur))
          end
      end
  end.

(** The [anyGroupBy] branch for one group of [n] reels. *)
Definition groupPicks (field : string) (source : list Item) (n : nat)
    (cur : nat) : option (list (option Item) * nat) :=
  buckets ← buildBuckets field source [];
  let keys := buckets.*1 in
  Some (groupLoop n buckets keys [] cur).

(** *** The picks of one reel group in [spin] and [seed] *)

(** A reel configuration [{ key, label, sourceKey, groupByField }]. *)
Record Cfg : Type := mkCfg {
  key : string;
  sourceKey : JsVal;
  groupByField : JsVal
}.

(** [cfg.sourceKey || cfg.key], the key under which [spin] and [seed] group
    the reels. *)
Definition reelSourceKey (c : Cfg) : string :=
  js_String (js_or (sourceKey c) (JStr (key c))).

(** [cfgs.find(c => c.groupByField)] *)
Definition anyGroupBy (cfgs : list Cfg) : option Cfg :=
  List.find (λ c, js_truthy (groupByField c)) cfgs.

(** slot.js: [spin] and [seed] compute the picks of a group alike. *)
Definition spin_picks (cfgs : list Cfg) (source : list Item) (cur : nat)
    : option (list (option Item) * nat) :=
  match anyGroupBy cfgs with
  | Some c => groupPicks (js_String (groupByField c)) source (length cfgs) cur
  | None => Some (sampleUnique (length cfgs) source [] cur)
  end.

Definition seed_picks (cfgs : list Cfg) (source : list Item) (cur : nat)
    : option (list (option Item) * nat) :=
  match anyGroupBy cfgs with
  | Some c => groupPicks (js_String (groupByField c)) source (length cfgs) cur
  | None => Some (sampleUnique (length cfgs) source [] cur)
  end.

(** The strict-mode revision: [spin(opts)] and [seed(opts)] with
    [strict = !!opts.strict]. *)
Definition spin_picks_strict (strict : bool) (sourceKey : string)
    (cfgs : list Cfg) (source : list Item) (cur : nat)
    : option (list (option Item) * nat) :=
  if strict && String.eqb sourceKey "strat" then
    _pickStratagemsWithConstraints source (Z.of_nat (length cfgs)) cur
  else
    match anyGroupBy cfgs with
    | Some c => groupPicks (js_String (groupByField c)) source (length cfgs) cur
    | None =>
        if strict && String.eqb sourceKey "strat" then
          _pickStratagemsWithConstraints source (Z.of_nat (length cfgs)) cur
        else Some (sampleUnique (length cfgs) source [] cur)
    end.

Definition seed_picks_strict (strict : bool) (sourceKey : string)
    (cfgs : list Cfg) (source : list Item) (cur : nat)
    : option (list (option Item) * nat) :=
  if strict && String.eqb sourceKey "strat" then
    _pickStratagemsWithConstraints source (Z.of_nat (length cfgs)) cur
  else
    match anyGroupBy cfgs with
    | Some c => groupPicks (js_String (groupByField c)) source (length cfgs) cur
    | None => Some (sampleUnique (length cfgs) source [] cur)
    end.

End Sampler.

(** ** Vocabulary of the specification *)

(** The non-empty slots of a selection, in order. *)
Definition nonEmpty (sel : list (option Item)) : list Item := omap id sel.

(** The number of empty markers of a selection. *)
Definition emptyMarkers (sel : list (option Item)) : nat :=
  length (filter (λ o, o = None) sel).

(** Field [k] of [x] is present and equals [v] up to letter case. *)
Definition fieldIs (k v : string) (x : Item) : bool :=
  match fields x !! k with
  | Some s => String.eqb (toLowerCase s) v
  | None => false
  end.

(** [Has Backpack] is "true". *)
Definition hasBackpack (x : Item) : bool := fieldIs "Has Backpack" "true" x.

(** [Type] is "support weapon" and [Subtype] is not "expendable". *)
Definition nonExpendableSupport (x : Item) : bool :=
  fieldIs "Type" "support weapon" x && negb (fieldIs "Subtype" "expendable" x).

Definition backpackCount (l : list Item) : nat := length (filter hasBackpack l).

Definition nonExpendableSupportCount (l : list Item) : nat :=
  length (filter nonExpendableSupport l).

(** Both exclusion rules hold of a list of items. *)
Definition rulesHold (l : list Item) : bool :=
  (backpackCount l <=? 1)%nat && (nonExpendableSupportCount l <=? 1)%nat.

(** Rows [items] were drawn from pairwise distinct positions of [source]. *)
Definition drawnFrom (source items : list Item) : Prop :=
  ∃ idxs : list nat,
    NoDup idxs ∧ Forall2 (λ x i, source !! i = Some x) items idxs.

(** What an attempt that is returned looks like. *)
Definition goodPick (pool : list Item) (count : Z) (pick : list (option Item))
    : Prop :=
  ∃ picked rest,
    pick = Some <$> picked
    ∧ picked ++ rest ≡ₚ pool
    ∧ Z.of_nat (length picked) = count
    ∧ rulesHold picked = true.

(** [sel] holds the rows [items] followed by empty markers up to [count];
    [rest] is what is left of the pool. The rows satisfy both rules, and when
    a slot stays empty every row left over would break a rule. *)
Definition selectionOf (source : list Item) (count : Z)
    (sel : list (option Item)) (items rest : list Item) : Prop :=
  sel = (Some <$> items) ++ replicate (Z.to_nat count - length items) None
  ∧ items ++ rest ≡ₚ source
  ∧ rulesHold items = true
  ∧ (length items ≤ Z.to_nat count)%nat
  ∧ (length items = Z.to_nat count
     ∨ ∀ x, x ∈ rest → rulesHold (items ++ [x]) = false).

(** [P] holds of the rows returned by the retry loop when an attempt
    succeeds, and of the rows built by the greedy fallback otherwise. *)
Definition onBothPaths (rng : nat → Sample) (source : list Item) (count : Z)
    (cur : nat) (P : list Item → Prop) : Prop :=
  ∃ found cur1,
    retry rng MAX_TRIES source count cur = Some (found, cur1)
    ∧ match found with
      | Some pick => P (nonEmpty pick)
      | None =>
          ∃ result cur2,
            greedy rng count [] source cur1 = Some (result, cur2)
            ∧ P (nonEmpty result)
      end.

(** *** ASCII text *)

(** A string of code units below 128. On such text [toLowerCase] and
    [trim] are the built-ins of the language. *)
Definition asciiText (s : string) : Prop :=
  Forall (λ c, (nat_of_ascii c < 128)%nat) (list_ascii_of_string s).

#[local] Instance asciiText_dec s : Decision (asciiText s).
Proof. unfold asciiText. apply _. Defined.

(** The cell [field] of a row, when it has one, is ASCII text. *)
Definition asciiCell (field : string) (x : Item) : Prop :=
  asciiText (default "" (fields x !! field)).

#[local] Instance asciiCell_dec field x : Decision (asciiCell field x).
Proof. unfold asciiCell. apply _. Defined.

(** *** The group-partitioned sampler *)

(** The lowercase value of the grouping field, [''] when it is absent. *)
Definition lowerKey (field : string) (x : Item) : string :=
  toLowerCase (default "" (fields x !! field)).

(** The distinct non-empty lowercase values of the grouping field. *)
Definition groupKeys (field : string) (source : list Item) : list string :=
  remove_dups (filter (λ k, k ≠ "") (lowerKey field <$> source)).

(** The rows of [l] filed under the key [k]. *)
Definition rowsOfKey (field k : string) (l : list Item) : list Item :=
  filter (λ x, lowerKey field x = k) l.

(** The bucket a [Map] built from the rows [l] holds under [k]. *)
Definition bucketOf (field k : string) (l : list Item) : option (list Item) :=
  if decide (k ≠ "" ∧ rowsOfKey field k l ≠ []) then Some (rowsOfKey field k l)
  else None.

(** Keys are distinct and non-empty; every bucket is non-empty and holds rows
    of the source filed under their own key. *)
Definition bucketsOk (field : string) (source : list Item) (b : Buckets)
    : Prop :=
  NoDup b.*1
  ∧ Forall (λ kv, kv.1 ≠ "" ∧ kv.2 ≠ []
                  ∧ Forall (λ x, x ∈ source ∧ lowerKey field x = kv.1) kv.2) b.

(** *** Sample rows and a random source *)

Definition row (r : nat) (cells : list (string * string)) : Item :=
  mkItem r (list_to_map cells).

Definition itemA : Item := row 0 [("Name", "A"); ("Has Backpack", "True")].
Definition itemB : Item := row 1 [("Name", "B"); ("Has Backpack", "true")].
Definition itemC : Item := row 2 [("Name", "C"); ("Has Backpack", "False")].
(** A row without a [Has Backpack] cell. *)
Definition itemD : Item := row 3 [("Name", "D"); ("Type", "Support Weapon")].

(** [Math.random()] returning 0 at every call. *)
Definition rngZero : nat → Sample := λ _, mkSample 0 0.

(** ** csv.js *)

(** The characters the parser looks for. *)
Definition dquote : ascii := ascii_of_nat 34.
Definition comma : ascii := ","%char.
Definition newline : ascii := ascii_of_nat 10.

(** [String.prototype.trim] on ASCII text: it strips tab, line feed,
    vertical tab, form feed, carriage return and space. The built-in also
    strips the white space beyond ASCII (no-break space, byte order mark,
    line and paragraph separator, the Unicode spaces), which this
    definition keeps, so the statements about trimmed text assume ASCII
    text ([asciiText]). *)
Fixpoint trimStart (s : string) : string :=
  match s with
  | EmptyString => EmptyString
  | String c s' => if Ascii.is_space c then trimStart s' else s
  end.

Fixpoint trimEnd (s : string) : string :=
  match s with
  | EmptyString => EmptyString
  | String c s' =>
      match trimEnd s' with
      | EmptyString => if Ascii.is_space c then EmptyString else String c EmptyString
      | t => String c t
      end
  end.

Definition trim (s : string) : string := trimEnd (trimStart s).

(** The loop of [parseCsvRow] over the characters that are left, followed by
    the final [cols.push(cur)]. After an escaped quote ([i++]) the loop
    resumes two characters on. *)
Fixpoint parseRowLoop (line cur : string) (inQuotes : bool)
    (cols : list string) : list string :=
  match line with
  | EmptyString => cols ++ [cur]
  | String ch rest =>
      if Ascii.eqb ch dquote then
        match rest with
        | String next rest' =>
            if inQuotes && Ascii.eqb next dquote
            then parseRowLoop rest' (cur +:+ String dquote EmptyString)
                   inQuotes cols
            else parseRowLoop rest cur (negb inQuotes) cols
        | EmptyString => parseRowLoop rest cur (negb inQuotes) cols
        end
      else if Ascii.eqb ch comma && negb inQuotes then
        parseRowLoop rest EmptyString inQuotes (cols ++ [cur])
      else parseRowLoop rest (cur +:+ String ch EmptyString) inQuotes cols
  end.

(** [parseCsvRow(line)] *)
Definition parseCsvRow (line : string) : list string :=
  trim <$> parseRowLoop line "" false [].

(** The loop of [splitCsvLines], followed by [if (cur) out.push(cur)]. *)
Fixpoint splitLoop (text cur : string) (inQuotes : bool) (out : list string)
    : list string :=
  match text with
  | EmptyString => if String.eqb cur "" then out else out ++ [cur]
  | String ch rest =>
      if Ascii.eqb ch dquote then
        match rest with
        | String next rest' =>
            if inQuotes && Ascii.eqb next dquote
            then splitLoop rest' (cur +:+ String dquote EmptyString)
                   inQuotes out
            else splitLoop rest cur (negb inQuotes) out
        | EmptyString => splitLoop rest cur (negb inQuotes) out
        end
      else if Ascii.eqb ch newline && negb inQuotes then
        splitLoop rest EmptyString inQuotes (out ++ [cur])
      else splitLoop rest (cur +:+ String ch EmptyString) inQuotes out
  end.

(** [splitCsvLines(text)]; [out.filter(Boolean)] drops the empty lines. *)
Definition splitCsvLines (text : string) : list string :=
  filter (λ l, l ≠ "") (splitLoop text "" false []).

(** [obj[h] = v] on a plain object: assigning a string to [__proto__]
    creates no property. *)
Definition setCell (obj : gmap string string) (h v : string)
    : gmap string string :=
  if String.eqb h "__proto__" then obj else <[h := v]> obj.

(** [headers.forEach((h, i) => obj[h] = cols[i] ?? '')] from index [i] on. *)
Fixpoint fillRow (headers : list string) (i : nat) (cols : list string)
    (obj : gmap string string) : gmap string string :=
  match headers with
  | [] => obj
  | h :: hs => fillRow hs (S i) cols (setCell obj h (default "" (cols !! i)))
  end.

(** [parseCsv(text)]. With no line left, [lines.shift()] is [undefined] and
    [parseCsvRow] throws on reading its length ([None]). The [k]-th row
    object is given the reference [k]. *)
Definition parseCsv (text : string) : option (list Item) :=
  match splitCsvLines (trim text) with
  | [] => None
  | header :: lines =>
      let headers := parseCsvRow header in
      Some (imap (λ k line, mkItem k (fillRow headers 0 (parseCsvRow line) ∅))
                 lines)
  end.

(** *** Writing records

    The usual CSV quoting, which the parser is meant to read back. *)

(** Every quote doubled. *)
Fixpoint escapeQuotes (s : string) : string :=
  match s with
  | EmptyString => EmptyString
  | String c s' =>
      if Ascii.eqb c dquote then String dquote (String dquote (escapeQuotes s'))
      else String c (escapeQuotes s')
  end.

Definition quoteField (s : string) : string :=
  String dquote (escapeQuotes s +:+ String dquote EmptyString).

(** A field is written quoted ([true]) or as it is ([false]). *)
Definition writeField (f : bool * string) : string :=
  if f.1 then quoteField f.2 else f.2.

Definition writeRecord (fs : list (bool * string)) : string :=
  String.concat "," (writeField <$> fs).

(** [c] occurs in [s]. *)
Fixpoint hasChar (c : ascii) (s : string) : bool :=
  match s with
  | EmptyString => false
  | String c' s' => Ascii.eqb c' c || hasChar c s'
  end.

(** The number of occurrences of [c] in [s]. *)
Fixpoint countChar (c : ascii) (s : string) : nat :=
  match s with
  | EmptyString => 0
  | String c' s' => (if Ascii.eqb c' c then 1 else 0) + countChar c s'
  end.

(** Some character of [s] is not white space. *)
Fixpoint hasNonSpace (s : string) : bool :=
  match s with
  | EmptyString => false
  | String c s' => negb (Ascii.is_space c) || hasNonSpace s'
  end.

(** [rest] is empty or starts with a character other than the quote. *)
Definition noQuoteStart (rest : string) : Prop :=
  match rest with
  | EmptyString => True
  | String c _ => c ≠ dquote
  end.

(** A field may be written plain when it holds no comma and no quote. *)
Definition plainOk (f : bool * string) : Prop :=
  f.1 = true ∨ (hasChar comma f.2 = false ∧ hasChar dquote f.2 = false).

(** A field written plain does not break the line when it holds no line
    feed and no quote. *)
Definition lineOk (f : bool * string) : Prop :=
  f.1 = true ∨ (hasChar newline f.2 = false ∧ hasChar dquote f.2 = false).

(** The fields of a record joined by commas, without any quoting. *)
Definition rawRecord (fs : list (bool * string)) : string :=
  String.concat "," (snd <$> fs).

(** ** slot.js: the helpers at the top of the file *)

(** [pickRandom(arr)] at call number [cur]: the element drawn, [undefined]
    ([None]) when there is none at the index. *)
Definition pickRandom {A} (rng : nat → Sample) (arr : list A) (cur : nat)
    : option A * nat :=
  (arr !! randomIndex rng (length arr) cur, S cur).

(** [byCategory(items, category)] *)
Definition byCategory (items : list Item) (category : string)
    : option (list Item) :=
  js_filter
    (λ i, s ← call_toLowerCase (js_or (getField i "Category") (JStr ""));
          Some (String.eqb s category))
    items.

(** ** app.js: the pools of the reels *)

(** [r.Category.toLowerCase() === c]: a TypeError when the row has no
    [Category]. *)
Definition categoryIs (c : string) (r : Item) : option bool :=
  s ← call_toLowerCase (getField r "Category");
  Some (String.eqb s c).

(** [(w.Type || '').toLowerCase() === t] *)
Definition typeIs (t : string) (w : Item) : option bool :=
  s ← call_toLowerCase (js_or (getField w "Type") (JStr ""));
  Some (String.eqb s t).

(** The object [reelData] of [main]. *)
Record ReelData : Type := mkReelData {
  primary : list Item;
  secondary : list Item;
  grenade : list Item;
  strat : list Item;
  booster : list Item
}.

(** The partition of the rows at the start of [main]. *)
Definition partitionRows (rows : list Item) : option ReelData :=
  weapons ← js_filter (categoryIs "weapon") rows;
  boosters ← js_filter (categoryIs "booster") rows;
  strategems ← js_filter (categoryIs "strategem") rows;
  primaries ← js_filter (typeIs "primary") weapons;
  secondaries ← js_filter (typeIs "secondary") weapons;
  grenades ← js_filter (typeIs "grenade") weapons;
  Some (mkReelData primaries secondaries grenades strategems boosters).

(** [this.reelData[sourceKey] || []]: the pool for the keys [main] defines,
    [[]] for a key that reads as [undefined], and [None] for an inherited
    name, whose value is no array (iterating it throws). *)
Definition reelDataGet (rd : ReelData) (k : string) : option (list Item) :=
  if String.eqb k "primary" then Some (primary rd)
  else if String.eqb k "secondary" then Some (secondary rd)
  else if String.eqb k "grenade" then Some (grenade rd)
  else if String.eqb k "strat" then Some (strat rd)
  else if String.eqb k "booster" then Some (booster rd)
  else if bool_decide (k ∈ protoNames) then None
  else Some [].

(** The reels of the two machines [main] creates. *)
Definition loadoutConfig : list Cfg :=
  [ mkCfg "primary" JUndefined JUndefined;
    mkCfg "secondary" JUndefined JUndefined;
    mkCfg "grenade" JUndefined JUndefined ].

Definition stratConfig : list Cfg :=
  [ mkCfg "strat-1" (JStr "strat") (JStr "Subtype");
    mkCfg "strat-2" (JStr "strat") (JStr "Subtype");
    mkCfg "strat-3" (JStr "strat") (JStr "Subtype");
    mkCfg "strat-4" (JStr "strat") (JStr "Subtype");
    mkCfg "booster" (JStr "booster") JUndefined ].

(** ** slot.js: the machine *)

(** The [Map] from source key to the reels that draw from it, in insertion
    order. *)
Definition Groups : Type := list (string * list Cfg).

Fixpoint groups_get (groups : Groups) (k : string) : option (list Cfg) :=
  match groups with
  | [] => None
  | (k', arr) :: rest => if String.eqb k' k then Some arr else groups_get rest k
  end.

Definition groups_has (groups : Groups) (k : string) : bool :=
  match groups_get groups k with Some _ => true | None => false end.

Fixpoint groups_set (groups : Groups) (k : string) (arr : list Cfg) : Groups :=
  match groups with
  | [] => [(k, arr)]
  | (k', arr') :: rest =>
      if String.eqb k' k then (k', arr) :: rest
      else (k', arr') :: groups_set rest k arr
  end.

(** The body of [this.reelsConfig.forEach(cfg => ...)] at the start of [spin]
    and [seed]. *)
Definition addReel (groups : Groups) (cfg : Cfg) : option Groups :=
  let sourceKey := reelSourceKey cfg in
  let groups1 :=
    if negb (groups_has groups sourceKey) then groups_set groups sourceKey []
    else groups in
  arr ← groups_get groups1 sourceKey;
  Some (groups_set groups1 sourceKey (arr ++ [cfg])).

Fixpoint groupReels (cfgs : list Cfg) (groups : Groups) : option Groups :=
  match cfgs with
  | [] => Some groups
  | cfg :: rest =>
      groups' ← addReel groups cfg;
      groupReels rest groups'
  end.

(** A machine: its reels, its pools and the keys of [this.reelEls]. *)
Record Machine : Type := mkMachine {
  reelsConfig : list Cfg;
  reelData : ReelData;
  reelEls : gset string
}.

(** [new SlotMachine(...)], given the keys [present] of the reels the
    document has an element for: the constructor throws on a reel without
    one ([el.querySelector] of [null]). *)
Definition newMachine (present : gset string) (cfgs : list Cfg)
    (rd : ReelData) : option Machine :=
  if forallb (λ c, bool_decide (key c ∈ present)) cfgs
  then Some (mkMachine cfgs rd (list_to_set (key <$> cfgs)))
  else None.

(** A [setTimeout] of [spin]: after [delay] ms the reel [reel] shows
    [shown]. *)
Record Timer : Type := mkTimer {
  delay : nat;
  reel : string;
  shown : Item
}.

(** The last [cfgs.forEach((cfg, j) => ...)] of [spin], from reel [j] on:
    a reel without a pick is skipped and does not advance [idx]. *)
Fixpoint scheduleReels (els : gset string) (cfgs : list Cfg)
    (picks : list (option Item)) (j idx : nat) (timers : list Timer)
    : list Timer * nat :=
  match cfgs with
  | [] => (timers, idx)
  | cfg :: rest =>
      match mjoin (picks !! j) with
      | Some item =>
          if bool_decide (key cfg ∈ els) then
            scheduleReels els rest picks (S j) (S idx)
              (timers ++ [mkTimer (300 + idx * 200) (key cfg) item])
          else scheduleReels els rest picks (S j) idx timers
      | None => scheduleReels els rest picks (S j) idx timers
      end
  end.

(** [for (const [sourceKey, cfgs] of groups.entries())] of [spin] in the
    strict-mode revision. *)
Fixpoint spinGroups (rng : nat → Sample) (strict : bool) (m : Machine)
    (groups : Groups) (cur idx : nat) (timers : list Timer)
    : option (list Timer * nat) :=
  match groups with
  | [] => Some (timers, cur)
  | (sourceKey, cfgs) :: rest =>
      source ← reelDataGet (reelData m) sourceKey;
      '(picks, cur') ← spin_picks_strict rng strict sourceKey cfgs source cur;
      let '(timers', idx') := scheduleReels (reelEls m) cfgs picks 0 idx timers in
      spinGroups rng strict m rest cur' idx' timers'
  end.

(** [spin(opts)] with [strict = !!opts.strict]: the timers set, in the
    order they are set, and the number of random calls made. *)
Definition spin (rng : nat → Sample) (strict : bool) (m : Machine) (cur : nat)
    : option (list Timer * nat) :=
  groups ← groupReels (reelsConfig m) [];
  spinGroups rng strict m groups cur 0 [].

(** The last [cfgs.forEach((cfg, j) => ...)] of [seed]: the reels rendered
    at once. *)
Fixpoint renderReels (els : gset string) (cfgs : list Cfg)
    (picks : list (option Item)) (j : nat) (rendered : list (string * Item))
    : list (string * Item) :=
  match cfgs with
  | [] => rendered
  | cfg :: rest =>
      match mjoin (picks !! j) with
      | Some item =>
          if bool_decide (key cfg ∈ els) then
            renderReels els rest picks (S j) (rendered ++ [(key cfg, item)])
          else renderReels els rest picks (S j) rendered
      | None => renderReels els rest picks (S j) rendered
      end
  end.

Fixpoint seedGroups (rng : nat → Sample) (strict : bool) (m : Machine)
    (groups : Groups) (cur : nat) (rendered : list (string * Item))
    : option (list (string * Item) * nat) :=
  match groups with
  | [] => Some (rendered, cur)
  | (sourceKey, cfgs) :: rest =>
      source ← reelDataGet (reelData m) sourceKey;
      '(picks, cur') ← seed_picks_strict rng strict sourceKey cfgs source cur;
      seedGroups rng strict m rest cur'
        (renderReels (reelEls m) cfgs picks 0 rendered)
  end.

(** [seed(opts)]: the reels rendered, in order. *)
Definition seed (rng : nat → Sample) (strict : bool) (m : Machine) (cur : nat)
    : option (list (string * Item) * nat) :=
  groups ← groupReels (reelsConfig m) [];
  seedGroups rng strict m groups cur [].

(** ** slot.js: [_render] and its image fallback *)

#[global] Instance JsVal_eq_dec : EqDecision JsVal.
Proof. solve_decision. Defined.

(** What [img.src] is set to: a value read from the row, or the generated
    SVG placeholder, which is a function of the escaped name. *)
Inductive ImgSrc : Type :=
| SrcValue (v : JsVal)
| SrcPlaceholder (escapedName : string).

(** What the [onerror] closure of [_render] captures. *)
Record Handler : Type := mkHandler {
  h_imgPath : JsVal;
  h_original : string;
  h_name : string
}.

(** The parts of a reel that [_render] writes. *)
Record Reel : Type := mkReel {
  src : ImgSrc;
  alt : string;
  triedFallback : string;
  onerror : option Handler;
  textContent : string
}.

(** [s.replace(/c/g, by)] for a one-character pattern. *)
Fixpoint replaceAll (c : ascii) (by_ : string) (s : string) : string :=
  match s with
  | EmptyString => EmptyString
  | String c' s' =>
      if Ascii.eqb c' c then by_ +:+ replaceAll c by_ s'
      else String c' (replaceAll c by_ s')
  end.

(** [name.replace(/&/g, '&amp;').replace(/</g, '&lt;')] *)
Definition escapeName (name : string) : string :=
  replaceAll "<" "&lt;" (replaceAll "&" "&amp;" name).

(** [_render(reel, item)] *)
Definition _render (r : Reel) (item : Item) : Reel :=
  let imgPath :=
    js_or (getField item "Resized Image Path") (getField item "Image Link") in
  let original := js_String (js_or (getField item "Image Link") (JStr "")) in
  let name := js_String (js_or (getField item "Name") (JStr "")) in
  mkReel (SrcValue imgPath) name "0"
    (Some (mkHandler imgPath original
             (js_String (js_or (getField item "Name") (JStr "Unknown")))))
    name.

(** An [error] event on the image: the handler installed, if any, runs. *)
Definition fireError (r : Reel) : Reel :=
  match onerror r with
  | None => r
  | Some h =>
      if String.eqb (triedFallback r) "0"
         && js_truthy (JStr (h_original h))
         && negb (bool_decide (JStr (h_original h) = h_imgPath h))
      then mkReel (SrcValue (JStr (h_original h))) (alt r) "1" (onerror r)
             (textContent r)
      else mkReel (SrcPlaceholder (escapeName (h_name h))) (alt r)
             (triedFallback r) None (textContent r)
  end.

(** *** Vocabulary for the pools and the image fallback *)

(** The row has a [Category] cell. *)
Definition hasCategory (r : Item) : Prop := is_Some (fields r !! "Category").

#[local] Instance hasCategory_dec r : Decision (hasCategory r).
Proof. unfold hasCategory. apply _. Defined.

(** The pools as the specification would write them: rows selected by
    [Category] and, for weapons, by [Type], up to letter case. *)
Definition poolsOf (rows : list Item) : ReelData :=
  let weapon t r := fieldIs "Category" "weapon" r && fieldIs "Type" t r in
  mkReelData (filter (weapon "primary") rows)
             (filter (weapon "secondary") rows)
             (filter (weapon "grenade") rows)
             (filter (fieldIs "Category" "strategem") rows)
             (filter (fieldIs "Category" "booster") rows).

(** The row has a resized image path and an image link, both non-empty and
    different: the link is worth a second try. *)
Definition hasSecondImage (item : Item) : bool :=
  let resized := default "" (fields item !! "Resized Image Path") in
  let link := default "" (fields item !! "Image Link") in
  negb (String.eqb resized "") && negb (String.eqb link "")
  && negb (String.eqb link resized).

(** The name on the placeholder. *)
Definition placeholderName (item : Item) : string :=
  match fields item !! "Name" with
  | Some (String c s) => String c s
  | _ => "Unknown"
  end.

(** *** Vocabulary for the machine *)

(** The timers [spin] sets for reels rendered in this order: 300 ms for
    the first, 200 ms more for each one after. *)
Definition stagger (rendered : list (string * Item)) : list Timer :=
  imap (λ i kx, mkTimer (300 + i * 200) kx.1 kx.2) rendered.

(** The reels of [cfgs] that draw from the source key [k]. *)
Definition reelsOfSource (k : string) (cfgs : list Cfg) : list Cfg :=
  filter (λ c, reelSourceKey c = k) cfgs.

(** The group a [Map] built from the reels [cfgs] holds under [k]. *)
Definition groupOf (k : string) (cfgs : list Cfg) : option (list Cfg) :=
  if decide (reelsOfSource k cfgs ≠ []) then Some (reelsOfSource k cfgs)
  else None.

(** The rows shown on the stratagem reels of the second machine of
    [main]. *)
Definition stratagemsShown (timers : list Timer) : list Item :=
  shown <$> filter (λ t, reel t ≠ "booster") timers.

(** The reel [k] of the machine showing [x] is a reel of its configuration
    and [x] a row of the pool that reel draws from. *)
Definition ownPool (m : Machine) (k : string) (x : Item) : Prop :=
  ∃ c pool, c ∈ reelsConfig m ∧ key c = k
            ∧ reelDataGet (reelData m) (reelSourceKey c) = Some pool
            ∧ x ∈ pool.

(** No group is empty, and every reel of a group belongs to [all] and draws
    from the group's key. *)
Definition groupsSound (all : list Cfg) (g : Groups) : Prop :=
  Forall (λ kv, kv.2 ≠ []
                ∧ Forall (λ c, c ∈ all ∧ reelSourceKey c = kv.1) kv.2) g.

(** No reel draws from, or groups by, a name inherited from
    [Object.prototype]: such a name reads as a function, not as a pool or
    a cell. *)
Definition plainConfig (cfgs : list Cfg) : Prop :=
  Forall (λ c, (reelSourceKey c ∉ protoNames)
               ∧ (js_String (groupByField c) ∉ protoNames)) cfgs.

(** A two-line file: a header and one row. *)
Definition sampleCsv : string :=
  "Name,Category" +:+ String newline "Diligence,Weapon".

(** The stratagem machine of [main] over the pools [rd]. *)
Definition stratMachine (rd : ReelData) : Machine :=
  mkMachine stratConfig rd (list_to_set (key <$> stratConfig)).

(** Pools with three stratagems. *)
Definition samplePools : ReelData :=
  mkReelData [] [] [] [itemA; itemB; itemC] [].

(** Stratagems with a [Subtype]: two eagles whose subtypes differ in letter
    case, an orbital, a sentry and a row whose subtype is blank. *)
Definition eagleAirstrike : Item :=
  row 10 [("Name", "Eagle Airstrike"); ("Subtype", "Eagle")].
Definition eagleStrafingRun : Item :=
  row 11 [("Name", "Eagle Strafing Run"); ("Subtype", "eagle")].
Definition orbitalLaser : Item :=
  row 12 [("Name", "Orbital Laser"); ("Subtype", "Orbital")].
Definition machineGunSentry : Item :=
  row 13 [("Name", "Machine Gun Sentry"); ("Subtype", "Sentry")].
Definition sosBeacon : Item :=
  row 14 [("Name", "SOS Beacon"); ("Subtype", "")].
Definition vitalityBooster : Item :=
  row 15 [("Name", "Vitality Enhancement"); ("Category", "Booster")].
Definition diligence : Item :=
  row 16 [("Name", "Diligence"); ("Category", "Weapon"); ("Type", "Primary")].

Definition subtypeRows : list Item :=
  [eagleAirstrike; eagleStrafingRun; sosBeacon; orbitalLaser;
   machineGunSentry].

Definition subtypePools : ReelData :=
  mkReelData [] [] [] subtypeRows [vitalityBooster].

(** ** Basic facts about the JavaScript helpers *)

Lemma floorScale_lt u len : (0 < len)%nat → (floorScale u len < len)%nat.
Proof.
  intros Hlen. unfold floorScale.
  apply Nat.Div0.div_lt_upper_bound. nia.
Qed.

(** Every index of an array is the outcome of some draw. *)
Lemma floorScale_onto len i :
  (i < len)%nat → floorScale (mkSample i (len - i - 1)) len = i.
Proof.
  intros Hi. unfold floorScale. simpl.
  replace (i + (len - i - 1) + 1)%nat with len by lia.
  apply Nat.div_mul. lia.
Qed.

Lemma randomIndex_lookup {A} rng (l : list A) cur :
  l ≠ [] → is_Some (l !! randomIndex rng (length l) cur).
Proof.
  intros Hl. apply lookup_lt_is_Some_2, floorScale_lt.
  destruct l; [done | simpl; lia].
Qed.

Lemma toLowerCase_nil s : toLowerCase s = "" ↔ s = "".
Proof. destruct s; simpl; split; congruence. Qed.

Lemma eqb_empty_r s : String.eqb s "" = bool_decide (s = "").
Proof. destruct s; reflexivity. Qed.

(** [(v || '')] read from a row is the cell, or [''] when it is absent. *)
Lemma js_or_getField x k :
  js_or (getField x k) (JStr "") = JStr (default "" (fields x !! k)).
Proof.
  unfold js_or, getField.
  destruct (fields x !! k) as [s|]; simpl; [|done].
  destruct s; reflexivity.
Qed.

Lemma fieldIs_default k v x :
  v ≠ "" →
  String.eqb (toLowerCase (default "" (fields x !! k))) v = fieldIs k v x.
Proof.
  intros Hv. unfold fieldIs.
  destruct (fields x !! k) as [s|]; simpl; [done|].
  destruct v; [done | reflexivity].
Qed.

Lemma isBackpack_Some x : isBackpack (Some x) = Some (hasBackpack x).
Proof.
  unfold isBackpack, hasBackpack. simpl.
  rewrite js_or_getField. simpl. by rewrite fieldIs_default.
Qed.

Lemma isSupport_Some x :
  isSupport (Some x) = Some (fieldIs "Type" "support weapon" x).
Proof.
  unfold isSupport. simpl.
  rewrite js_or_getField. simpl. by rewrite fieldIs_default.
Qed.

Lemma isNonExpendable_Some x :
  isNonExpendable (Some x) = Some (negb (fieldIs "Subtype" "expendable" x)).
Proof.
  unfold isNonExpendable. simpl.
  rewrite js_or_getField. simpl. by rewrite fieldIs_default.
Qed.

Lemma js_filter_Some (p : option Item → option bool) (q : Item → bool) l :
  (∀ x, p (Some x) = Some (q x)) →
  js_filter p (Some <$> l) = Some (Some <$> filter q l).
Proof.
  intros Hp. induction l as [|x l IH]; [done|].
  rewrite fmap_cons. simpl. rewrite Hp, IH. simpl.
  rewrite filter_cons. by destruct (q x).
Qed.

Lemma filter_filter_andb {A} (p q : A → bool) (l : list A) :
  filter q (filter p l) = filter (λ x, p x && q x) l.
Proof.
  induction l as [|x l IH]; [done|].
  rewrite !filter_cons.
  destruct (p x) eqn:Hp, (q x) eqn:Hq; simpl;
    rewrite ?filter_cons, ?Hq; simpl; by rewrite IH.
Qed.

(** On a list of rows [satisfies] never throws and decides the two rules. *)
Lemma satisfies_Some l : satisfies (Some <$> l) = Some (rulesHold l).
Proof.
  unfold satisfies, rulesHold, backpackCount, nonExpendableSupportCount.
  rewrite (js_filter_Some _ _ _ isBackpack_Some). simpl.
  rewrite length_fmap.
  rewrite (js_filter_Some _ _ _ isSupport_Some). simpl.
  rewrite (js_filter_Some _ _ _ isNonExpendable_Some). simpl.
  rewrite length_fmap, filter_filter_andb.
  fold nonExpendableSupport.
  change (filter (λ x, fieldIs "Type" "support weapon" x
                       && negb (fieldIs "Subtype" "expendable" x)) l)
    with (filter nonExpendableSupport l).
  destruct (length (filter hasBackpack l)) as [|[|n]] eqn:Hb; simpl;
  destruct (length (filter nonExpendableSupport l)) as [|[|m]]; reflexivity.
Qed.

(** ** The exclusion rules on lists of rows *)

Lemma rulesHold_true l :
  rulesHold l = true ↔
  (backpackCount l ≤ 1)%nat ∧ (nonExpendableSupportCount l ≤ 1)%nat.
Proof.
  unfold rulesHold. rewrite andb_true_iff, !Nat.leb_le. done.
Qed.

Lemma backpackCount_app l k :
  backpackCount (l ++ k) = (backpackCount l + backpackCount k)%nat.
Proof. unfold backpackCount. by rewrite filter_app, length_app. Qed.

Lemma nonExpendableSupportCount_app l k :
  nonExpendableSupportCount (l ++ k)
  = (nonExpendableSupportCount l + nonExpendableSupportCount k)%nat.
Proof. unfold nonExpendableSupportCount. by rewrite filter_app, length_app. Qed.

#[local] Instance backpackCount_perm : Proper ((≡ₚ) ==> (=)) backpackCount.
Proof. intros l k Hlk. unfold backpackCount. by rewrite Hlk. Qed.

#[local] Instance nonExpendableSupportCount_perm :
  Proper ((≡ₚ) ==> (=)) nonExpendableSupportCount.
Proof. intros l k Hlk. unfold nonExpendableSupportCount. by rewrite Hlk. Qed.

#[local] Instance rulesHold_perm : Proper ((≡ₚ) ==> (=)) rulesHold.
Proof. intros l k Hlk. unfold rulesHold. by rewrite Hlk. Qed.

(** The rules are inherited by every part of a list that satisfies them. *)
Lemma rulesHold_part l rest k :
  l ++ rest ≡ₚ k → rulesHold k = true → rulesHold l = true.
Proof.
  intros Hperm. rewrite <- Hperm, !rulesHold_true.
  rewrite backpackCount_app, nonExpendableSupportCount_app. lia.
Qed.

Lemma rulesHold_nil : rulesHold [] = true.
Proof. reflexivity. Qed.

Lemma rulesHold_singleton x : rulesHold [x] = true.
Proof.
  apply rulesHold_true.
  unfold backpackCount, nonExpendableSupportCount.
  split; etrans; try apply length_filter; done.
Qed.

(** ** One attempt of the retry loop *)

Section SamplerFacts.

Variable rng : nat → Sample.

(** An attempt moves [min n (length temp)] rows from [temp] to [pick], one
    random call each; nothing is drawn twice and no slot is [undefined]. *)
Lemma drawUnique_spec n temp p0 cur :
  ∃ picked rest,
    drawUnique rng n temp (Some <$> p0) cur
      = (Some <$> (p0 ++ picked), (cur + length picked)%nat)
    ∧ picked ++ rest ≡ₚ temp
    ∧ length picked = (n `min` length temp)%nat.
Proof.
  revert temp p0 cur.
  induction n as [|n IH]; intros temp p0 cur.
  { exists [], temp. rewrite app_nil_r, Nat.add_0_r. done. }
  destruct temp as [|t ts].
  { exists [], []. rewrite app_nil_r, Nat.add_0_r. done. }
  cbn [drawUnique].
  destruct (randomIndex_lookup rng (t :: ts) cur) as [x Hx]; [done|].
  rewrite Hx.
  pose proof (delete_Permutation _ _ _ Hx) as Hperm.
  pose proof (lookup_lt_Some _ _ _ Hx) as Hlt.
  assert (Some <$> p0 ++ [x] = (Some <$> p0) ++ [Some x]) as <-
    by (by rewrite fmap_app).
  destruct (IH (delete (randomIndex rng (length (t :: ts)) cur) (t :: ts))
              (p0 ++ [x]) (S cur)) as (picked & rest & Heq & Hp & Hlen).
  exists (x :: picked), rest.
  rewrite Heq, <- app_assoc. simpl.
  split; [f_equal; lia|].
  split; [by rewrite Hperm, <- Hp|].
  rewrite Hlen, length_delete by eauto. simpl in *. lia.
Qed.

(** ** The retry loop *)

Lemma retry_spec attempts pool count cur :
  ∃ found cur',
    retry rng attempts pool count cur = Some (found, cur')
    ∧ ∀ pick, found = Some pick → goodPick pool count pick.
Proof.
  revert cur. induction attempts as [|a IH]; intros cur.
  { exists None, cur. done. }
  cbn [retry].
  destruct (drawUnique_spec (Z.to_nat count) pool [] cur)
    as (picked & rest & Heq & Hperm & Hlen).
  simpl in Heq. rewrite Heq.
  rewrite length_fmap.
  destruct (Z.of_nat (length picked) =? count)%Z eqn:Hcount; [|apply IH].
  rewrite satisfies_Some. simpl.
  destruct (rulesHold picked) eqn:Hrules; [|apply IH].
  eexists _, _. split; [done|].
  intros pick [= <-]. exists picked, rest.
  apply Z.eqb_eq in Hcount. done.
Qed.

(** When the whole pool satisfies the rules and holds [count] rows, the first
    attempt is returned. *)
Lemma retry_first attempts pool count cur :
  rulesHold pool = true →
  (0 < count ≤ Z.of_nat (length pool))%Z →
  retry rng (S attempts) pool count cur
  = Some (Some (drawUnique rng (Z.to_nat count) pool [] cur).1,
          (drawUnique rng (Z.to_nat count) pool [] cur).2).
Proof.
  intros Hpool Hcount. cbn [retry].
  destruct (drawUnique_spec (Z.to_nat count) pool [] cur)
    as (picked & rest & Heq & Hperm & Hlen).
  simpl in Heq. rewrite Heq. simpl.
  rewrite length_fmap.
  assert ((Z.of_nat (length picked) =? count)%Z = true) as ->
    by (apply Z.eqb_eq; lia).
  rewrite satisfies_Some, (rulesHold_part _ _ _ Hperm Hpool). done.
Qed.

(** ** The greedy fallback *)

(** One iteration of [while (result.length < count && remaining.length)]. *)
Lemma greedy_step count result remaining cur :
  greedy rng count result remaining cur =
  if (Z.of_nat (length result) <? count)%Z && negb (bool_decide (remaining = []))
  then
    let idx := randomIndex rng (length remaining) cur in
    let cand := remaining !! idx in
    let remaining' := delete idx remaining in
    ok ← satisfies (result ++ [cand]);
    let result' := if ok : bool then result ++ [cand] else result in
    if bool_decide (remaining' = []) && (Z.of_nat (length result') <? count)%Z
    then Some (result', S cur)
    else greedy rng count result' remaining' (S cur)
  else Some (result, cur).
Proof.
  destruct remaining as [|r rs]; simp greedy.
  { by rewrite andb_false_r. }
  destruct (Z.of_nat (length result) <? count)%Z; simpl; [|done].
  by destruct (satisfies _).
Qed.

(** The outcome of the fallback started with the rows [r0] already placed:
    the rows of [remaining] split into those accepted (appended in the order
    drawn), those rejected and those never drawn. A rejected row breaks a
    rule when added to the final result, and rows are left undrawn only
    when the result is full. *)
Lemma greedy_spec count remaining : ∀ r0 cur,
  ∃ accepted rejected left cur',
    greedy rng count (Some <$> r0) remaining cur
      = Some (Some <$> (r0 ++ accepted), cur')
    ∧ accepted ++ rejected ++ left ≡ₚ remaining
    ∧ (rulesHold r0 = true → rulesHold (r0 ++ accepted) = true)
    ∧ (∀ x, x ∈ rejected → rulesHold (r0 ++ accepted ++ [x]) = false)
    ∧ (accepted = [] ∨ (Z.of_nat (length (r0 ++ accepted)) ≤ count)%Z)
    ∧ (left = [] ∨ (count ≤ Z.of_nat (length (r0 ++ accepted)))%Z).
Proof.
  induction remaining as [remaining IH] using (induction_ltof1 _ length).
  unfold ltof in IH. intros r0 cur.
  rewrite greedy_step, length_fmap.
  destruct (Z.of_nat (length r0) <? count)%Z eqn:Hfull; simpl.
  2:{ apply Z.ltb_ge in Hfull.
      exists [], [], remaining, cur. rewrite app_nil_r.
      split_and!; [done | done | done | set_solver | by left | right; lia]. }
  apply Z.ltb_lt in Hfull.
  case_bool_decide as Hrem; simpl.
  { subst remaining. exists [], [], [], cur. rewrite app_nil_r.
    split_and!; [done | done | done | set_solver | by left | by left]. }
  destruct (randomIndex_lookup rng remaining cur Hrem) as [x Hx].
  rewrite Hx.
  pose proof (delete_Permutation _ _ _ Hx) as Hperm.
  set (remaining' := delete _ remaining) in *.
  assert (length remaining' < length remaining)%nat as Hdec.
  { unfold remaining'. rewrite length_delete by eauto.
    apply lookup_lt_Some in Hx. lia. }
  assert ((Some <$> r0) ++ [Some x] = Some <$> r0 ++ [x]) as ->
    by (by rewrite fmap_app).
  rewrite satisfies_Some. simpl.
  destruct (rulesHold (r0 ++ [x])) eqn:Hok.
  - (* the candidate is accepted *)
    rewrite length_fmap, length_app. simpl length.
    destruct (bool_decide (remaining' = [])
              && (Z.of_nat (length r0 + 1) <? count)%Z) eqn:Hbreak.
    + apply andb_true_iff in Hbreak as [Hnil%bool_decide_eq_true Hlt%Z.ltb_lt].
      exists [x], [], [], (S cur). rewrite Hperm, Hnil.
      split_and!; [done | done | done | set_solver | | by left].
      right. rewrite length_app. simpl. lia.
    + destruct (IH remaining' Hdec (r0 ++ [x]) (S cur))
        as (acc & rej & left & cur' & Heq & Hp & Hkeep & Hrej & Hlen & Hleft).
      assert (∀ l, r0 ++ x :: l = (r0 ++ [x]) ++ l) as Hmid
        by (intros l; by rewrite <- app_assoc).
      exists (x :: acc), rej, left, cur'.
      rewrite Heq, (Hmid acc).
      split_and!; [done | by rewrite Hperm, <- Hp | auto | | | done].
      * intros y Hy. simpl. rewrite (Hmid (acc ++ [y])). by apply Hrej.
      * right. destruct Hlen as [->|Hlen]; [|done].
        rewrite app_nil_r, length_app. simpl. lia.
  - (* the candidate is rejected and dropped *)
    rewrite length_fmap.
    assert ((Z.of_nat (length r0) <? count)%Z = true) as ->
      by (by apply Z.ltb_lt).
    rewrite andb_true_r.
    case_bool_decide as Hnil.
    + exists [], [x], [], (S cur). rewrite app_nil_r, Hperm, Hnil. simpl.
      split_and!; [done | done | done | | by left | by left].
      intros y Hy. apply list_elem_of_singleton in Hy. by subst y.
    + destruct (IH remaining' Hdec r0 (S cur))
        as (acc & rej & left & cur' & Heq & Hp & Hkeep & Hrej & Hlen & Hleft).
      exists acc, (x :: rej), left, cur'.
      split; [done|]. split.
      { rewrite Hperm, <- Hp. by rewrite Permutation_middle. }
      split; [done|]. split; [|done].
      intros y [->|Hy]%elem_of_cons; [|by apply Hrej].
      destruct (rulesHold (r0 ++ acc ++ [x])) eqn:Hall; [|done].
      rewrite <- Hok. symmetry.
      apply (rulesHold_part _ acc (r0 ++ acc ++ [x])); [|done].
      rewrite <- !app_assoc. simpl.
      apply Permutation_app_head. by rewrite Permutation_app_comm.
Qed.

Lemma padNulls_spec count result :
  padNulls count result
  = result ++ replicate (Z.to_nat count - length result) None.
Proof.
  funelim (padNulls count result).
  - match goal with IH : padNulls _ _ = _ ++ _ |- _ => rewrite IH end.
    rewrite length_app, <- app_assoc. simpl. f_equal.
    replace (Z.to_nat count - length result)%nat
      with (S (Z.to_nat count - (length result + 1)))%nat by lia.
    done.
  - replace (Z.to_nat count - length result)%nat with 0%nat by lia.
    by rewrite app_nil_r.
Qed.

End SamplerFacts.

(** ** The shape of every selection of the constrained sampler *)

Lemma pick_shape rng source count cur :
  ∃ sel cur' items rest,
    _pickStratagemsWithConstraints rng source count cur = Some (sel, cur')
    ∧ selectionOf source count sel items rest.
Proof.
  unfold _pickStratagemsWithConstraints, selectionOf.
  destruct (count <=? 0)%Z eqn:Hcount.
  { apply Z.leb_le in Hcount.
    exists [], cur, [], source.
    replace (Z.to_nat count) with 0%nat by lia.
    split_and!; [done | done | done | done | done | by left]. }
  apply Z.leb_gt in Hcount.
  destruct (retry_spec rng MAX_TRIES source count cur)
    as (found & cur1 & -> & Hfound).
  simpl. destruct found as [pick|].
  - destruct (Hfound pick eq_refl) as (picked & rest & -> & Hperm & Hlen & Hok).
    exists (Some <$> picked), cur1, picked, rest.
    replace (Z.to_nat count - length picked)%nat with 0%nat by lia.
    rewrite app_nil_r.
    split_and!; [done | done | done | done | lia | left; lia].
  - destruct (greedy_spec rng count source [] cur1)
      as (acc & rej & left & cur2 & Heq & Hperm & Hkeep & Hrej & Hlen & Hleft).
    simpl in *. rewrite Heq. simpl.
    exists (padNulls count (Some <$> acc)), cur2, acc, (rej ++ left).
    rewrite padNulls_spec, length_fmap.
    split_and!; [done | done | done | by apply Hkeep | |].
    + destruct Hlen as [->|Hlen]; simpl; lia.
    + destruct Hleft as [->|Hfull].
      * right. intros x. rewrite app_nil_r. apply Hrej.
      * left. destruct Hlen as [->|Hlen]; simpl in *; lia.
Qed.

Lemma nonEmpty_fmap_Some items : nonEmpty (Some <$> items) = items.
Proof.
  unfold nonEmpty. induction items as [|x l IH]; [done|].
  cbn. by f_equal.
Qed.

Lemma nonEmpty_replicate_None k : nonEmpty (replicate k None) = [].
Proof. unfold nonEmpty. by induction k. Qed.

Lemma nonEmpty_padded items k :
  nonEmpty ((Some <$> items) ++ replicate k None) = items.
Proof.
  unfold nonEmpty. rewrite omap_app.
  fold (nonEmpty (Some <$> items)). fold (nonEmpty (replicate k None)).
  by rewrite nonEmpty_fmap_Some, nonEmpty_replicate_None, app_nil_r.
Qed.

Lemma emptyMarkers_padded items k :
  emptyMarkers ((Some <$> items) ++ replicate k None) = k.
Proof.
  unfold emptyMarkers. rewrite filter_app, length_app.
  assert (filter (λ o : option Item, o = None) (Some <$> items) = []) as ->.
  { induction items as [|x l IH]; [done|].
    rewrite fmap_cons, filter_cons. by case_decide. }
  induction k as [|k IH]; [done|].
  simpl replicate. rewrite filter_cons.
  case_decide; [|done]. simpl in *. by rewrite IH.
Qed.

(** A part of a list sits at pairwise distinct positions of it. *)
Lemma drawnFrom_part source items rest :
  items ++ rest ≡ₚ source → drawnFrom source items.
Proof.
  intros Hperm. apply Permutation_inj in Hperm as (Hlen & f & Hinj & Hf).
  exists (f <$> seq 0 (length items)). split.
  - apply NoDup_fmap_2; [done | apply NoDup_seq].
  - apply Forall2_fmap_r, Forall2_lookup. intros i.
    destruct (decide (i < length items)%nat) as [Hi|Hi].
    + destruct (lookup_lt_is_Some_2 items i Hi) as [x Hx].
      rewrite Hx, lookup_seq_lt by done. constructor. simpl.
      by rewrite <- Hf, lookup_app_l, Hx.
    + rewrite lookup_ge_None_2, lookup_ge_None_2 by (rewrite ?length_seq; lia).
      constructor.
Qed.

(** Rows at pairwise distinct positions of a pool of distinct objects are
    distinct objects. *)
Lemma drawnFrom_refs source items :
  drawnFrom source items → NoDup (ref <$> source) → NoDup (ref <$> items).
Proof.
  intros (idxs & Hnd & Hall) Hsrc.
  revert idxs Hnd Hall. induction items as [|x items IH]; intros idxs Hnd Hall.
  { constructor. }
  apply Forall2_cons_inv_l in Hall as (i & idxs' & Hx & Hall & ->).
  apply NoDup_cons in Hnd as [Hi Hnd].
  rewrite fmap_cons. apply NoDup_cons. split; [|by eapply IH].
  intros (y & Hxy & Hy)%list_elem_of_fmap.
  apply list_elem_of_lookup in Hy as [j Hy].
  destruct (Forall2_lookup_l _ _ _ _ _ Hall Hy) as (i' & Hi' & Hsy).
  assert (i = i') as <-.
  { eapply NoDup_lookup; [exact Hsrc| |];
      rewrite list_lookup_fmap; [by rewrite Hx | by rewrite Hsy, Hxy]. }
  apply Hi. eapply list_elem_of_lookup_2, Hi'.
Qed.

(** ** The buckets of the group-partitioned sampler *)

(** Off the inherited names the key of a row is the lower case of its
    cell. *)
Lemma bucketKey_lowerKey field x :
  field ∉ protoNames → bucketKey field x = Some (lowerKey field x).
Proof.
  intros Hf. unfold bucketKey. rewrite bool_decide_false by tauto.
  by rewrite js_or_getField.
Qed.

(** Under an inherited name a row without an own cell has no key: reading
    it throws. *)
Lemma bucketKey_inherited field x :
  field ∈ protoNames → fields x !! field = None → bucketKey field x = None.
Proof. intros Hf Hx. unfold bucketKey. by rewrite bool_decide_true. Qed.

Lemma buckets_get_Some b k arr : buckets_get b k = Some arr → (k, arr) ∈ b.
Proof.
  induction b as [|[k' arr'] b IH]; simpl; [done|].
  destruct (String.eqb_spec k' k) as [->|Hne].
  - intros [= ->]. left.
  - intros H. right. auto.
Qed.

Lemma buckets_get_None b k : buckets_get b k = None ↔ k ∉ b.*1.
Proof.
  induction b as [|[k' arr'] b IH]; simpl.
  { split; [intros _; apply not_elem_of_nil | done]. }
  rewrite not_elem_of_cons.
  destruct (String.eqb_spec k' k) as [->|Hne].
  - split; [done | by intros [? _]].
  - rewrite IH. split; [by intros ? | by intros [_ ?]].
Qed.

Lemma buckets_get_elem b k arr :
  NoDup b.*1 → (k, arr) ∈ b → buckets_get b k = Some arr.
Proof.
  induction b as [|[k' arr'] b IH]; simpl.
  { intros _ H. by apply not_elem_of_nil in H. }
  intros [Hk' Hnd]%NoDup_cons [[= -> ->]|Hin]%elem_of_cons.
  - by rewrite String.eqb_refl.
  - destruct (String.eqb_spec k' k) as [->|Hne]; [|auto].
    destruct Hk'. apply list_elem_of_fmap. by exists (k, arr).
Qed.

Lemma buckets_set_keys b k arr :
  (buckets_set b k arr).*1 = if buckets_has b k then b.*1 else b.*1 ++ [k].
Proof.
  unfold buckets_has.
  induction b as [|[k' arr'] b IH]; [done|].
  cbn [buckets_set buckets_get].
  destruct (String.eqb_spec k' k) as [->|Hne]; [done|].
  rewrite !fmap_cons, IH. by destruct (buckets_get b k).
Qed.

Lemma buckets_set_elem b k arr kv :
  kv ∈ buckets_set b k arr → kv = (k, arr) ∨ kv ∈ b.
Proof.
  induction b as [|[k' arr'] b IH]; simpl.
  { intros ->%list_elem_of_singleton. by left. }
  destruct (String.eqb_spec k' k) as [->|Hne].
  - intros [->|Hin]%elem_of_cons; [by left | right; by right].
  - intros [->|Hin]%elem_of_cons; [right; left|].
    destruct (IH Hin); [by left | right; by right].
Qed.

Lemma buckets_get_set b k arr : buckets_get (buckets_set b k arr) k = Some arr.
Proof.
  induction b as [|[k' arr'] b IH]; simpl.
  { by rewrite String.eqb_refl. }
  destruct (String.eqb_spec k' k) as [->|Hne]; simpl.
  - by rewrite String.eqb_refl.
  - by destruct (String.eqb_spec k' k).
Qed.

Lemma buckets_has_elem b k : buckets_has b k = true ↔ k ∈ b.*1.
Proof.
  unfold buckets_has. destruct (buckets_get b k) as [arr|] eqn:Hget.
  - split; [intros _|done].
    apply buckets_get_Some in Hget. apply list_elem_of_fmap. by exists (k, arr).
  - apply buckets_get_None in Hget. split; [done | by intros ?].
Qed.

Lemma bucketsOk_set field source b k arr :
  bucketsOk field source b →
  k ≠ "" → arr ≠ [] →
  Forall (λ x, x ∈ source ∧ lowerKey field x = k) arr →
  bucketsOk field source (buckets_set b k arr).
Proof.
  intros [Hnd Hall] Hk Harr Hrows. split.
  - rewrite buckets_set_keys.
    destruct (buckets_has b k) eqn:Hhas; [done|].
    apply NoDup_app. split_and!; [done | | apply NoDup_singleton].
    intros k' Hk' ->%list_elem_of_singleton.
    apply buckets_has_elem in Hk'. congruence.
  - apply Forall_forall. intros kv [->|Hin]%buckets_set_elem; [done|].
    by apply (proj1 (Forall_forall _ _) Hall).
Qed.

(** Filing one row never throws; it adds the row's key when that key is
    non-empty and new. *)
Lemma addToBucket_spec field source b x :
  field ∉ protoNames →
  bucketsOk field source b → x ∈ source →
  ∃ b', addToBucket field b x = Some b'
        ∧ bucketsOk field source b'
        ∧ ∀ k, k ∈ b'.*1 ↔ k ∈ b.*1 ∨ (k ≠ "" ∧ k = lowerKey field x).
Proof.
  intros Hf Hok Hx. unfold addToBucket.
  rewrite bucketKey_lowerKey by done. simpl.
  set (key := lowerKey field x).
  rewrite eqb_empty_r, negb_involutive.
  case_bool_decide as Hkey.
  { exists b. split_and!; [done | done |]. intros k. split; [tauto|].
    intros [?|[? ->]]; done. }
  destruct (buckets_has b key) eqn:Hhas; simpl.
  - destruct (buckets_get b key) as [arr|] eqn:Hget.
    2:{ unfold buckets_has in Hhas. by rewrite Hget in Hhas. }
    simpl. eexists. split; [done|].
    pose proof (buckets_get_Some _ _ _ Hget) as Hin.
    destruct Hok as [Hnd Hall].
    pose proof (proj1 (Forall_forall _ _) Hall _ Hin) as (_ & _ & Hrows).
    simpl in Hrows. split.
    + apply bucketsOk_set; [done | done | by destruct arr |].
      apply Forall_app. split; [done|]. by apply Forall_singleton.
    + intros k. rewrite buckets_set_keys, Hhas.
      apply buckets_has_elem in Hhas. split; [tauto|].
      intros [?|[_ ->]]; done.
  - rewrite buckets_get_set. simpl. eexists. split; [done|].
    assert (bucketsOk field source (buckets_set b key [x])) as Hok'.
    { apply bucketsOk_set; [done | done | done |]. by apply Forall_singleton. }
    assert (buckets_set (buckets_set b key []) key [x] = buckets_set b key [x])
      as ->.
    { clear. induction b as [|[k' arr'] b IH]; simpl.
      - by rewrite String.eqb_refl.
      - destruct (String.eqb_spec k' key) as [->|Hne]; simpl.
        + by rewrite String.eqb_refl.
        + destruct (String.eqb_spec k' key); [done|]. by rewrite IH. }
    split; [done|].
    intros k. rewrite buckets_set_keys, Hhas, elem_of_app, list_elem_of_singleton.
    split; [intros [? | ->]; tauto | tauto].
Qed.

Lemma buildBuckets_spec field source l :
  field ∉ protoNames → ∀ b,
  bucketsOk field source b → Forall (λ x, x ∈ source) l →
  ∃ b', buildBuckets field l b = Some b'
        ∧ bucketsOk field source b'
        ∧ ∀ k, k ∈ b'.*1 ↔ k ∈ b.*1 ∨ (k ≠ "" ∧ k ∈ lowerKey field <$> l).
Proof.
  intros Hf. induction l as [|x l IH]; intros b Hok Hl.
  { exists b. split_and!; [done | done |].
    intros k. rewrite fmap_nil, elem_of_nil. tauto. }
  apply Forall_cons in Hl as [Hx Hl]. cbn [buildBuckets].
  destruct (addToBucket_spec field source b x Hf Hok Hx)
    as (b1 & -> & Hok1 & Hk1).
  cbn [mbind option_bind].
  destruct (IH b1 Hok1 Hl) as (b' & -> & Hok' & Hk').
  exists b'. split_and!; [done | done |].
  intros k. rewrite Hk', Hk1, fmap_cons, elem_of_cons. tauto.
Qed.

(** The keys of the buckets built from a source are its group keys. *)
Lemma buildBuckets_keys field source :
  field ∉ protoNames →
  ∃ b, buildBuckets field source [] = Some b
       ∧ bucketsOk field source b
       ∧ b.*1 ≡ₚ groupKeys field source.
Proof.
  intros Hf.
  destruct (buildBuckets_spec field source source Hf [])
    as (b & Heq & Hok & Hkeys).
  { split; [constructor | constructor]. }
  { by apply Forall_forall. }
  exists b. split_and!; [done | done |].
  apply NoDup_Permutation; [apply Hok | apply NoDup_remove_dups |].
  intros k. unfold groupKeys.
  rewrite Hkeys, elem_of_remove_dups, list_elem_of_filter, fmap_nil, elem_of_nil.
  tauto.
Qed.

(** ** The loop over the reels of a group *)

(** With sound buckets and distinct keys, [n] reels receive rows from
    [min n (length keys)] distinct buckets, in the order drawn; the reels
    beyond that stay empty. *)
Lemma groupLoop_spec rng field source b n : ∀ keys picks cur,
  bucketsOk field source b → NoDup keys → keys ⊆ b.*1 →
  ∃ xs ks rest cur',
    groupLoop rng n b keys picks cur
      = (picks ++ (Some <$> xs) ++ replicate (n - length xs) None, cur')
    ∧ ks ++ rest ≡ₚ keys
    ∧ length xs = (n `min` length keys)%nat
    ∧ Forall2 (λ x k, x ∈ source ∧ lowerKey field x = k) xs ks.
Proof.
  induction n as [|n IH]; intros keys picks cur Hok Hnd Hsub.
  { exists [], [], keys, cur. simpl. rewrite app_nil_r.
    split_and!; [done | done | done | constructor]. }
  destruct keys as [|k0 keys0].
  { cbn [groupLoop].
    destruct (IH [] (picks ++ [None]) cur Hok Hnd Hsub)
      as (xs & ks & rest & cur' & Heq & Hperm & Hlen & Hall).
    rewrite Nat.min_0_r in Hlen. apply nil_length_inv in Hlen. subst xs.
    exists [], [], [], cur'. rewrite Heq, <- app_assoc. simpl.
    rewrite Nat.sub_0_r.
    split_and!; [done | done | done | constructor]. }
  cbn [groupLoop].
  set (keys := k0 :: keys0) in *.
  destruct (randomIndex_lookup rng keys cur) as [k Hk]; [done|].
  rewrite Hk. cbn [mbind option_bind].
  pose proof (delete_Permutation _ _ _ Hk) as Hperm.
  set (keys' := delete _ keys) in *.
  assert (k ∈ b.*1) as Hkb.
  { apply Hsub. by eapply list_elem_of_lookup_2. }
  apply list_elem_of_fmap in Hkb as ([k' arr] & -> & Hin). simpl.
  destruct Hok as [Hbnd Hball].
  rewrite (buckets_get_elem _ _ _ Hbnd Hin). simpl.
  pose proof (proj1 (Forall_forall _ _) Hball _ Hin) as (_ & Harr & Hrows).
  simpl in Harr, Hrows.
  destruct arr as [|a arr0]; [done|].
  set (arr := a :: arr0) in *.
  destruct (randomIndex_lookup rng arr (S cur)) as [x Hx]; [done|].
  rewrite Hx.
  assert (x ∈ source ∧ lowerKey field x = k') as Hxk.
  { apply (proj1 (Forall_forall _ _) Hrows). by eapply list_elem_of_lookup_2. }
  assert (NoDup keys') as Hnd'.
  { rewrite Hperm in Hnd. by apply NoDup_cons in Hnd as [_ ?]. }
  assert (keys' ⊆ b.*1) as Hsub'.
  { intros y Hy. apply Hsub. rewrite Hperm. by right. }
  destruct (IH keys' (picks ++ [Some x]) (S (S cur)) (conj Hbnd Hball) Hnd' Hsub')
    as (xs & ks & rest & cur' & Heq & Hp & Hlen & Hall).
  exists (x :: xs), (k' :: ks), rest, cur'.
  rewrite Heq, <- app_assoc. simpl.
  split_and!; [done | by rewrite Hperm, <- Hp | | by constructor].
  rewrite Hlen. unfold keys'. rewrite length_delete by eauto.
  subst keys. simpl. lia.
Qed.

(** Off the inherited names the group-partitioned sampler never throws.
    It fills [min n (number of group keys)] reels, each with a row of the
    source whose grouping field is its bucket's key, and no bucket is used
    twice. *)
Lemma groupPicks_spec rng field source n cur :
  field ∉ protoNames →
  ∃ xs ks cur',
    groupPicks rng field source n cur
      = Some ((Some <$> xs) ++ replicate (n - length xs) None, cur')
    ∧ length xs = (n `min` length (groupKeys field source))%nat
    ∧ NoDup ks
    ∧ Forall (λ k, k ≠ "") ks
    ∧ Forall2 (λ x k, x ∈ source ∧ lowerKey field x = k) xs ks.
Proof.
  intros Hf. unfold groupPicks.
  destruct (buildBuckets_keys field source Hf) as (b & -> & Hok & Hkeys).
  cbn [mbind option_bind].
  destruct (groupLoop_spec rng field source b n (b.*1) [] cur Hok)
    as (xs & ks & rest & cur' & Heq & Hperm & Hlen & Hall);
    [apply Hok | done |].
  exists xs, ks, cur'. rewrite Heq. simpl.
  split_and!; [done | by rewrite Hlen, Hkeys | | | done].
  - destruct Hok as [Hnd _]. rewrite <- Hperm in Hnd.
    by apply NoDup_app in Hnd as [? _].
  - apply Forall_forall. intros k Hk.
    assert (k ∈ b.*1) as Hkb by (rewrite <- Hperm; set_solver).
    apply list_elem_of_fmap in Hkb as (kv & -> & Hin).
    destruct Hok as [_ Hball].
    by apply (proj1 (Forall_forall _ _) Hball _ Hin).
Qed.

(** ** Both paths of the constrained sampler *)

Lemma both_paths rng source count cur :
  onBothPaths rng source count cur
    (λ items, rulesHold items = true ∧ ∃ rest, items ++ rest ≡ₚ source).
Proof.
  destruct (retry_spec rng MAX_TRIES source count cur)
    as (found & cur1 & Heq & Hfound).
  exists found, cur1. split; [done|].
  destruct found as [pick|].
  - destruct (Hfound pick eq_refl) as (picked & rest & -> & Hperm & _ & Hok).
    rewrite nonEmpty_fmap_Some. eauto.
  - destruct (greedy_spec rng count source [] cur1)
      as (acc & rej & left & cur2 & Hg & Hperm & Hkeep & _).
    simpl in Hg. eexists _, _. split; [exact Hg|].
    rewrite nonEmpty_fmap_Some. split; [by apply Hkeep|].
    by exists (rej ++ left).
Qed.

Lemma onBothPaths_mono rng source count cur (P Q : list Item → Prop) :
  (∀ items, P items → Q items) →
  onBothPaths rng source count cur P → onBothPaths rng source count cur Q.
Proof.
  intros HPQ (found & cur1 & Heq & H). exists found, cur1. split; [done|].
  destruct found; [auto|].
  destruct H as (result & cur2 & Hg & H). eauto.
Qed.

(** ** The constrained sampler: properties *)

(** C1. For every pool, count and sequence of random draws, the selection of
    [_pickStratagemsWithConstraints] has at most one non-empty slot whose
    [Has Backpack] cell is "true" up to letter case; the bound holds of the
    attempt returned by the retry loop and of the result of the greedy
    fallback alike. *)
Theorem backpack_cap rng source count cur :
  (∃ sel cur',
     _pickStratagemsWithConstraints rng source count cur = Some (sel, cur')
     ∧ (backpackCount (nonEmpty sel) ≤ 1)%nat)
  ∧ onBothPaths rng source count cur (λ items, (backpackCount items ≤ 1)%nat).
Proof.
  split.
  - destruct (pick_shape rng source count cur)
      as (sel & cur' & items & rest & Heq & -> & _ & Hok & _).
    eexists _, cur'. split; [done|].
    rewrite nonEmpty_padded. by apply rulesHold_true in Hok as [? _].
  - eapply onBothPaths_mono, both_paths.
    intros items [Hok _]. by apply rulesHold_true in Hok as [? _].
Qed.

(** C2. For every pool, count and sequence of random draws, among the
    non-empty slots of the selection at most one is a support weapon
    ([Type] is "support weapon" up to letter case) whose [Subtype] is not
    "expendable"; expendable support weapons are not counted. *)
Theorem non_expendable_support_cap rng source count cur :
  (∃ sel cur',
     _pickStratagemsWithConstraints rng source count cur = Some (sel, cur')
     ∧ (nonExpendableSupportCount (nonEmpty sel) ≤ 1)%nat)
  ∧ onBothPaths rng source count cur
      (λ items, (nonExpendableSupportCount items ≤ 1)%nat).
Proof.
  split.
  - destruct (pick_shape rng source count cur)
      as (sel & cur' & items & rest & Heq & -> & _ & Hok & _).
    eexists _, cur'. split; [done|].
    rewrite nonEmpty_padded. by apply rulesHold_true in Hok as [_ ?].
  - eapply onBothPaths_mono, both_paths.
    intros items [Hok _]. by apply rulesHold_true in Hok as [_ ?].
Qed.

(** The non-empty slots sit at pairwise distinct positions of the pool. *)
Lemma pick_drawnFrom rng source count cur :
  ∃ sel cur',
    _pickStratagemsWithConstraints rng source count cur = Some (sel, cur')
    ∧ drawnFrom source (nonEmpty sel).
Proof.
  destruct (pick_shape rng source count cur)
    as (sel & cur' & items & rest & Heq & -> & Hperm & _).
  eexists _, cur'. split; [done|].
  rewrite nonEmpty_padded. by eapply drawnFrom_part.
Qed.

(** In a pool of pairwise distinct objects the non-empty slots are pairwise
    distinct objects. *)
Lemma slots_distinct_objects rng source count cur :
  NoDup (ref <$> source) →
  ∃ sel cur',
    _pickStratagemsWithConstraints rng source count cur = Some (sel, cur')
    ∧ NoDup (ref <$> nonEmpty sel).
Proof.
  intros Hsrc.
  destruct (pick_drawnFrom rng source count cur) as (sel & cur' & Heq & Hfrom).
  exists sel, cur'. split; [done|]. by eapply drawnFrom_refs.
Qed.

(** C3. For every pool, count and sequence of random draws, the non-empty
    slots of the selection come from pairwise distinct entries of the pool,
    on the retry path and on the greedy fallback path: no pool entry fills
    two slots. *)
Theorem slots_from_distinct_entries rng source count cur :
  (∃ sel cur',
     _pickStratagemsWithConstraints rng source count cur = Some (sel, cur')
     ∧ drawnFrom source (nonEmpty sel))
  ∧ onBothPaths rng source count cur (drawnFrom source).
Proof.
  split; [apply pick_drawnFrom|].
  eapply onBothPaths_mono, both_paths.
  intros items [_ [rest Hperm]]. by eapply drawnFrom_part.
Qed.

(** C4. For every pool with at most one backpack row and at most one
    non-expendable support weapon, and every count with
    0 < count <= pool.length, the sampler returns exactly [count] rows from
    pairwise distinct pool entries and no empty marker, whatever the random
    draws. What it returns is the first attempt of the retry loop: the
    [count] draws of that attempt pass [satisfies], the loop returns them
    at once, after [count] random calls, and the sampler returns what the
    loop returned. *)
Theorem unconstrained_pool_first_attempt rng source count cur :
  (backpackCount source ≤ 1)%nat →
  (nonExpendableSupportCount source ≤ 1)%nat →
  (0 < count ≤ Z.of_nat (length source))%Z →
  ∃ items cur',
    _pickStratagemsWithConstraints rng source count cur
      = Some (Some <$> items, cur')
    ∧ Z.of_nat (length items) = count
    ∧ drawnFrom source items
    ∧ drawUnique rng (Z.to_nat count) source [] cur = (Some <$> items, cur')
    ∧ satisfies (Some <$> items) = Some true
    ∧ retry rng MAX_TRIES source count cur
      = Some (Some (Some <$> items), cur')
    ∧ cur' = (cur + Z.to_nat count)%nat.
Proof.
  intros Hbp Hsup Hcount.
  assert (rulesHold source = true) as Hok by (by apply rulesHold_true).
  unfold _pickStratagemsWithConstraints.
  assert ((count <=? 0)%Z = false) as -> by (apply Z.leb_gt; lia).
  change MAX_TRIES with (S 199).
  rewrite retry_first by done.
  destruct (drawUnique_spec rng (Z.to_nat count) source [] cur)
    as (picked & rest & Heq & Hperm & Hlen).
  simpl in Heq. rewrite Heq. simpl.
  exists picked, (cur + length picked)%nat.
  split_and!; [done | lia | by eapply drawnFrom_part | done | | done | lia].
  by rewrite satisfies_Some, (rulesHold_part _ _ _ Hperm Hok).
Qed.

Lemma unconstrained_pool_first_attempt_witness :
  (backpackCount [itemA; itemC; itemD] ≤ 1)%nat
  ∧ (nonExpendableSupportCount [itemA; itemC; itemD] ≤ 1)%nat
  ∧ (0 < 2 ≤ Z.of_nat (length [itemA; itemC; itemD]))%Z
  ∧ ∃ items cur',
      _pickStratagemsWithConstraints rngZero [itemA; itemC; itemD] 2 0
        = Some (Some <$> items, cur')
      ∧ Z.of_nat (length items) = 2%Z
      ∧ drawnFrom [itemA; itemC; itemD] items
      ∧ drawUnique rngZero (Z.to_nat 2) [itemA; itemC; itemD] [] 0
        = (Some <$> items, cur')
      ∧ satisfies (Some <$> items) = Some true
      ∧ retry rngZero MAX_TRIES [itemA; itemC; itemD] 2 0
        = Some (Some (Some <$> items), cur')
      ∧ cur' = (0 + Z.to_nat 2)%nat.
Proof.
  assert (backpackCount [itemA; itemC; itemD] ≤ 1)%nat as H1
    by (vm_compute; lia).
  assert (nonExpendableSupportCount [itemA; itemC; itemD] ≤ 1)%nat as H2
    by (vm_compute; lia).
  assert (0 < 2 ≤ Z.of_nat (length [itemA; itemC; itemD]))%Z as H3
    by (simpl; lia).
  split; [exact H1|]. split; [exact H2|]. split; [exact H3|].
  exact (unconstrained_pool_first_attempt rngZero [itemA; itemC; itemD] 2 0
           H1 H2 H3).
Defined.

(** C5. For every pool and count the sampler returns (it neither diverges
    nor throws): a sequence of exactly [count] slots when count >= 1, padded
    with empty markers as needed, and the empty sequence when count <= 0. *)
Theorem full_length_selection rng source count cur :
  ∃ sel cur',
    _pickStratagemsWithConstraints rng source count cur = Some (sel, cur')
    ∧ length sel = Z.to_nat count
    ∧ if (count <=? 0)%Z then sel = [] else Z.of_nat (length sel) = count.
Proof.
  destruct (pick_shape rng source count cur)
    as (sel & cur' & items & rest & Heq & -> & _ & _ & Hlen & _).
  eexists _, cur'. split; [done|].
  rewrite length_app, length_fmap, length_replicate.
  split; [lia|].
  destruct (count <=? 0)%Z eqn:Hcount.
  - apply Z.leb_le in Hcount.
    assert (length items = 0)%nat as Hnil%nil_length_inv by lia.
    subst items. by replace (Z.to_nat count) with 0%nat by lia.
  - apply Z.leb_gt in Hcount. lia.
Qed.

(** C6 does not hold as the specification words it: from the pool of the
    two backpack rows [A] and [B] and count 3 the sampler returns [A] and
    two empty markers, not two rows and one empty marker. *)
Lemma oversized_count_counterexample :
  (Z.of_nat (length [itemA; itemB]) < 3)%Z
  ∧ _pickStratagemsWithConstraints rngZero [itemA; itemB] 3 0
    = Some ([Some itemA; None; None], 402%nat)
  ∧ length (nonEmpty [Some itemA; None; None]) ≠ length [itemA; itemB]
  ∧ Z.of_nat (emptyMarkers [Some itemA; None; None])
    ≠ (3 - Z.of_nat (length [itemA; itemB]))%Z.
Proof.
  split_and!; [simpl; lia | vm_compute; reflexivity | simpl; lia
              | vm_compute; congruence].
Qed.

(** C6 (amended). For count > pool.length the selection has [count] slots,
    at most pool.length of them non-empty and the others empty markers; it
    has exactly pool.length non-empty slots and count - pool.length empty
    markers if and only if the pool as a whole satisfies both exclusion
    rules. *)
Theorem oversized_count rng source count cur :
  (Z.of_nat (length source) < count)%Z →
  ∃ sel cur',
    _pickStratagemsWithConstraints rng source count cur = Some (sel, cur')
    ∧ Z.of_nat (length (nonEmpty sel) + emptyMarkers sel) = count
    ∧ (length (nonEmpty sel) ≤ length source)%nat
    ∧ (rulesHold source = true
       ↔ length (nonEmpty sel) = length source
         ∧ Z.of_nat (emptyMarkers sel) = (count - Z.of_nat (length source))%Z).
Proof.
  intros Hcount.
  destruct (pick_shape rng source count cur)
    as (sel & cur' & items & rest & Heq & -> & Hperm & Hok & Hlen & Hmax).
  eexists _, cur'. split; [done|].
  rewrite nonEmpty_padded, emptyMarkers_padded.
  pose proof (Permutation_length Hperm) as Hlens.
  rewrite length_app in Hlens.
  split_and!; [lia | lia |].
  split.
  - intros Hsrc.
    destruct Hmax as [Hfull|Hrej]; [lia|].
    destruct rest as [|x rest]; [simpl in *; lia|].
    assert (rulesHold (items ++ [x]) = true) as Hx.
    { apply (rulesHold_part _ rest source); [|done].
      by rewrite <- app_assoc. }
    rewrite Hrej in Hx by left. done.
  - intros [Hall _].
    assert (rest = []) as -> by (apply nil_length_inv; lia).
    rewrite app_nil_r in Hperm. by rewrite <- Hperm.
Qed.

Lemma oversized_count_witness :
  (Z.of_nat (length [itemA; itemB]) < 3)%Z
  ∧ ∃ sel cur',
      _pickStratagemsWithConstraints rngZero [itemA; itemB] 3 0
        = Some (sel, cur')
      ∧ Z.of_nat (length (nonEmpty sel) + emptyMarkers sel) = 3%Z
      ∧ (length (nonEmpty sel) ≤ length [itemA; itemB])%nat
      ∧ (rulesHold [itemA; itemB] = true
         ↔ length (nonEmpty sel) = length [itemA; itemB]
           ∧ Z.of_nat (emptyMarkers sel)
             = (3 - Z.of_nat (length [itemA; itemB]))%Z).
Proof.
  assert (Z.of_nat (length [itemA; itemB]) < 3)%Z as H by (simpl; lia).
  split; [exact H|].
  exact (oversized_count rngZero [itemA; itemB] 3 0 H).
Defined.

(** ** The scenario of two backpack rows and one plain row *)

Lemma backpackCount_cons x l :
  backpackCount (x :: l)
  = ((if hasBackpack x then 1 else 0) + backpackCount l)%nat.
Proof.
  unfold backpackCount. rewrite filter_cons. by destruct (hasBackpack x).
Qed.

Lemma perm3_head (x : Item) l a b c :
  x :: l ≡ₚ [a; b; c] →
  (x = a ∧ l ≡ₚ [b; c]) ∨ (x = b ∧ l ≡ₚ [a; c]) ∨ (x = c ∧ l ≡ₚ [a; b]).
Proof.
  intros Hperm.
  assert (x ∈ [a; b; c]) as Hx by (rewrite <- Hperm; left).
  apply elem_of_cons in Hx as [->|Hx].
  { left. split; [done|]. by apply Permutation_cons_inv in Hperm. }
  apply elem_of_cons in Hx as [->|Hx].
  { right; left. split; [done|].
    apply (Permutation_cons_inv (a:=b)). rewrite Hperm. apply Permutation_swap. }
  apply list_elem_of_singleton in Hx as ->.
  right; right. split; [done|].
  apply (Permutation_cons_inv (a:=c)). rewrite Hperm.
  change [a; b; c] with ([a; b] ++ [c]). by rewrite Permutation_app_comm.
Qed.

(** C7. For the pool [A; B; C] where [A] and [B] have a backpack and [C]
    has none (and the support-weapon rule does not set [C] against [A] or
    [B]) and count = 2, every sequence of random draws, whichever path
    produces the result, gives a selection made of [C] and exactly one of
    [A] and [B], with no empty slot. *)
Theorem backpack_scenario rng A B C cur :
  hasBackpack A = true →
  hasBackpack B = true →
  hasBackpack C = false →
  (nonExpendableSupportCount [A; C] ≤ 1)%nat →
  (nonExpendableSupportCount [B; C] ≤ 1)%nat →
  ∃ sel cur',
    _pickStratagemsWithConstraints rng [A; B; C] 2 cur = Some (sel, cur')
    ∧ (sel ≡ₚ [Some A; Some C] ∨ sel ≡ₚ [Some B; Some C]).
Proof.
  intros HA HB HC HsupA HsupB.
  assert (rulesHold [A; B] = false) as HAB.
  { unfold rulesHold. rewrite !backpackCount_cons, HA, HB. done. }
  assert (rulesHold [A; C] = true) as HAC.
  { apply rulesHold_true. rewrite !backpackCount_cons, HA, HC. done. }
  assert (rulesHold [B; C] = true) as HBC.
  { apply rulesHold_true. rewrite !backpackCount_cons, HB, HC. done. }
  assert (rulesHold [C; A] = true) as HCA.
  { by rewrite (rulesHold_perm [C; A] [A; C] (Permutation_swap _ _ _)). }
  destruct (pick_shape rng [A; B; C] 2 cur)
    as (sel & cur' & items & rest & Heq & -> & Hperm & Hok & Hlen & Hmax).
  eexists _, cur'. split; [done|].
  pose proof (Permutation_length Hperm) as Hlens.
  rewrite length_app in Hlens. simpl in Hlens.
  destruct items as [|y1 [|y2 [|y3 items]]]; simpl in Hlen, Hlens.
  - (* no row placed: [A] alone would have been accepted *)
    destruct Hmax as [Hfull|Hrej]; [simpl in Hfull; lia|].
    simpl in Hperm. specialize (Hrej A). simpl in Hrej.
    rewrite rulesHold_singleton in Hrej.
    assert (A ∈ rest) by (rewrite Hperm; left). by specialize (Hrej H).
  - (* one row placed: some row left over goes with it *)
    destruct Hmax as [Hfull|Hrej]; [simpl in Hfull; lia|].
    simpl in Hperm, Hrej.
    apply perm3_head in Hperm as [[-> Hrest]|[[-> Hrest]|[-> Hrest]]].
    + specialize (Hrej C). rewrite HAC in Hrej.
      assert (C ∈ rest) by (rewrite Hrest; right; left). by specialize (Hrej H).
    + specialize (Hrej C). rewrite HBC in Hrej.
      assert (C ∈ rest) by (rewrite Hrest; right; left). by specialize (Hrej H).
    + specialize (Hrej A). rewrite HCA in Hrej.
      assert (A ∈ rest) by (rewrite Hrest; left). by specialize (Hrej H).
  - (* two rows placed: they are not [A] and [B] *)
    destruct rest as [|x [|? ?]]; simpl in Hlens; try lia.
    assert (x :: [y1; y2] ≡ₚ [A; B; C]) as Hx.
    { rewrite <- Hperm. change (x :: [y1; y2]) with ([x] ++ [y1; y2]).
      apply Permutation_app_comm. }
    simpl.
    apply perm3_head in Hx as [[-> Hrest]|[[-> Hrest]|[-> Hrest]]].
    + right. change [Some y1; Some y2] with (Some <$> [y1; y2]).
      by rewrite Hrest.
    + left. change [Some y1; Some y2] with (Some <$> [y1; y2]).
      by rewrite Hrest.
    + rewrite (rulesHold_perm _ _ Hrest) in Hok. congruence.
  - lia.
Qed.

Lemma backpack_scenario_witness :
  hasBackpack itemA = true
  ∧ hasBackpack itemB = true
  ∧ hasBackpack itemC = false
  ∧ (nonExpendableSupportCount [itemA; itemC] ≤ 1)%nat
  ∧ (nonExpendableSupportCount [itemB; itemC] ≤ 1)%nat
  ∧ ∃ sel cur',
      _pickStratagemsWithConstraints rngZero [itemA; itemB; itemC] 2 0
        = Some (sel, cur')
      ∧ (sel ≡ₚ [Some itemA; Some itemC] ∨ sel ≡ₚ [Some itemB; Some itemC]).
Proof.
  assert (hasBackpack itemA = true) as H1 by reflexivity.
  assert (hasBackpack itemB = true) as H2 by reflexivity.
  assert (hasBackpack itemC = false) as H3 by reflexivity.
  assert (nonExpendableSupportCount [itemA; itemC] ≤ 1)%nat as H4
    by (vm_compute; lia).
  assert (nonExpendableSupportCount [itemB; itemC] ≤ 1)%nat as H5
    by (vm_compute; lia).
  split; [exact H1|]. split; [exact H2|]. split; [exact H3|].
  split; [exact H4|]. split; [exact H5|].
  exact (backpack_scenario rngZero itemA itemB itemC 0 H1 H2 H3 H4 H5).
Defined.

(** ** Rows with a malformed [Has Backpack] cell *)

(** C9. A row whose [Has Backpack] cell is missing, or is any string other
    than "true" up to letter case, is read as a non-backpack row without an
    exception; [satisfies] computes the backpack cap as if the row were
    absent, and the sampler returns a selection for every pool that holds
    such a row. *)
Theorem malformed_backpack_field x :
  (fields x !! "Has Backpack" = None
   ∨ ∃ s, fields x !! "Has Backpack" = Some s ∧ toLowerCase s ≠ "true") →
  isBackpack (Some x) = Some false
  ∧ (∀ l1 l2,
       satisfies (Some <$> (l1 ++ x :: l2))
       = Some ((backpackCount (l1 ++ l2) <=? 1)%nat
               && (nonExpendableSupportCount (l1 ++ x :: l2) <=? 1)%nat))
  ∧ (∀ rng l1 l2 count cur,
       ∃ sel cur',
         _pickStratagemsWithConstraints rng (l1 ++ x :: l2) count cur
         = Some (sel, cur')).
Proof.
  intros Hx.
  assert (hasBackpack x = false) as Hno.
  { unfold hasBackpack, fieldIs.
    destruct Hx as [->|(s & -> & Hs)]; [done|].
    by apply String.eqb_neq. }
  split_and!.
  - by rewrite isBackpack_Some, Hno.
  - intros l1 l2. rewrite satisfies_Some. unfold rulesHold.
    by rewrite !backpackCount_app, backpackCount_cons, Hno.
  - intros rng l1 l2 count cur.
    destruct (pick_shape rng (l1 ++ x :: l2) count cur)
      as (sel & cur' & _ & _ & Heq & _).
    eauto.
Qed.

Lemma malformed_backpack_field_witness :
  (fields itemD !! "Has Backpack" = None
   ∨ ∃ s, fields itemD !! "Has Backpack" = Some s ∧ toLowerCase s ≠ "true")
  ∧ isBackpack (Some itemD) = Some false.
Proof.
  assert (fields itemD !! "Has Backpack" = None
          ∨ ∃ s, fields itemD !! "Has Backpack" = Some s
                 ∧ toLowerCase s ≠ "true") as H
    by (left; reflexivity).
  split; [exact H|].
  exact (proj1 (malformed_backpack_field itemD H)).
Defined.

(** ** The group-partitioned sampler: properties *)


(** Grouping by an inherited name throws as soon as one row has no cell of
    that name. *)
Lemma buildBuckets_inherited field source x :
  field ∈ protoNames → x ∈ source → fields x !! field = None →
  ∀ b, buildBuckets field source b = None.
Proof.
  intros Hf Hx Hcell. induction source as [|y source IH]; intros b.
  { by apply elem_of_nil in Hx. }
  cbn [buildBuckets]. apply elem_of_cons in Hx as [<-|Hx].
  - unfold addToBucket. by rewrite bucketKey_inherited.
  - destruct (addToBucket field b y) as [b'|]; [|done].
    cbn [mbind option_bind]. by apply IH.
Qed.

Lemma groupPicks_inherited rng field source x n cur :
  field ∈ protoNames → x ∈ source → fields x !! field = None →
  groupPicks rng field source n cur = None.
Proof.
  intros Hf Hx Hcell. unfold groupPicks.
  by rewrite (buildBuckets_inherited field source x Hf Hx Hcell).
Qed.



(** C10. For every grouping field that is not a name inherited from
    [Object.prototype], the group-partitioned sampler returns, and a row
    whose grouping field is missing or empty is put in no bucket: every row
    returned is a row of the source with a non-empty value in the grouping
    field, whatever the pool and the random draws. (Under an inherited name
    a row without that cell is not skipped: the sampler throws on it,
    [groupPicks_inherited].) *)
Theorem group_sampler_skips_blank_rows rng field source n cur :
  field ∉ protoNames →
  ∃ picks cur',
    groupPicks rng field source n cur = Some (picks, cur')
    ∧ Forall (λ x, x ∈ source
                   ∧ ∃ s, fields x !! field = Some s ∧ s ≠ "")
        (nonEmpty picks).
Proof.
  intros Hf.
  destruct (groupPicks_spec rng field source n cur Hf)
    as (xs & ks & cur' & Heq & _ & _ & Hne & Hall).
  eexists _, cur'. split; [done|].
  rewrite nonEmpty_padded. clear Heq.
  induction Hall as [|x k xs ks [Hx Hk] _ IH]; [constructor|].
  apply Forall_cons in Hne as [Hk0 Hne].
  constructor; [|by apply IH].
  split; [done|].
  unfold lowerKey in Hk.
  destruct (fields x !! field) as [s|]; simpl in Hk; [|congruence].
  exists s. split; [done|]. intros ->. simpl in Hk. congruence.
Qed.

Lemma group_sampler_skips_blank_rows_witness :
  ("Subtype" ∉ protoNames)
  ∧ ∃ picks cur',
      groupPicks rngZero "Subtype" (itemA :: subtypeRows) 4 0
        = Some (picks, cur')
      ∧ Forall (λ x, x ∈ itemA :: subtypeRows
                     ∧ ∃ s, fields x !! "Subtype" = Some s ∧ s ≠ "")
          (nonEmpty picks).
Proof.
  assert ("Subtype" ∉ protoNames) as H.
  { apply (bool_decide_unpack _). vm_compute. exact I. }
  split; [exact H|].
  exact (group_sampler_skips_blank_rows rngZero "Subtype"
           (itemA :: subtypeRows) 4 0 H).
Defined.

(** On the sample rows, with every draw at index 0: one row of each of the
    three subtypes, then an empty reel; grouped by [constructor], a name no
    row has a cell for, the sampler throws. *)
Lemma subtypeRows_picks :
  groupPicks rngZero "Subtype" subtypeRows 4 0
  = Some ([Some eagleAirstrike; Some orbitalLaser; Some machineGunSentry;
           None], 6%nat)
  ∧ groupPicks rngZero "constructor" subtypeRows 4 0 = None.
Proof. split; vm_compute; reflexivity. Qed.

(** The grouped branch of [spin] and [seed], in both revisions, is the
    group-partitioned sampler on the field of the first reel that names
    one. *)
Lemma grouped_branch rng cfgs c source cur :
  anyGroupBy cfgs = Some c →
  let grouped :=
    groupPicks rng (js_String (groupByField c)) source (length cfgs) cur in
  spin_picks rng cfgs source cur = grouped
  ∧ seed_picks rng cfgs source cur = grouped
  ∧ (∀ strict sourceKey,
       strict && String.eqb sourceKey "strat" = false →
       spin_picks_strict rng strict sourceKey cfgs source cur = grouped
       ∧ seed_picks_strict rng strict sourceKey cfgs source cur = grouped).
Proof.
  intros Hany grouped.
  unfold spin_picks, seed_picks, spin_picks_strict, seed_picks_strict.
  rewrite Hany. split_and!; [done | done |].
  intros strict sourceKey ->. done.
Qed.

(** In strict mode the stratagem reels use the constrained sampler, with
    one slot per reel. *)
Lemma strict_branch rng cfgs source cur :
  spin_picks_strict rng true "strat" cfgs source cur
  = _pickStratagemsWithConstraints rng source (Z.of_nat (length cfgs)) cur
  ∧ seed_picks_strict rng true "strat" cfgs source cur
    = _pickStratagemsWithConstraints rng source (Z.of_nat (length cfgs)) cur.
Proof. done. Qed.

(** ** The constrained sampler: further properties *)

(** X1. Every selection is a run of rows followed by the empty markers. *)
Theorem empty_markers_trail rng source count cur :
  ∃ sel cur',
    _pickStratagemsWithConstraints rng source count cur = Some (sel, cur')
    ∧ sel = (Some <$> nonEmpty sel) ++ replicate (emptyMarkers sel) None.
Proof.
  destruct (pick_shape rng source count cur)
    as (sel & cur' & items & rest & Heq & -> & _).
  eexists _, cur'. split; [done|].
  by rewrite nonEmpty_padded, emptyMarkers_padded.
Qed.

(** X2. A selection is maximal: when a slot is left empty, each row of the pool
    that was not placed would break a rule if it joined the rows placed. *)
Theorem selection_maximal rng source count cur :
  ∃ sel cur' rest,
    _pickStratagemsWithConstraints rng source count cur = Some (sel, cur')
    ∧ nonEmpty sel ++ rest ≡ₚ source
    ∧ (emptyMarkers sel = 0%nat
       ∨ Forall (λ x, rulesHold (nonEmpty sel ++ [x]) = false) rest).
Proof.
  destruct (pick_shape rng source count cur)
    as (sel & cur' & items & rest & Heq & -> & Hperm & _ & Hlen & Hmax).
  eexists _, cur', rest. split; [done|].
  rewrite nonEmpty_padded, emptyMarkers_padded.
  split; [done|].
  destruct Hmax as [Hfull|Hrej]; [left; lia|].
  right. by apply Forall_forall.
Qed.

(** X3. In a non-empty pool whose rows exclude one another pairwise, a request
    for one slot or more fills exactly one slot. *)
Theorem exclusive_pool_one_slot rng source count cur :
  source ≠ [] →
  (1 ≤ count)%Z →
  (∀ i j x y, i ≠ j → source !! i = Some x → source !! j = Some y →
              rulesHold [x; y] = false) →
  ∃ sel cur',
    _pickStratagemsWithConstraints rng source count cur = Some (sel, cur')
    ∧ length (nonEmpty sel) = 1%nat
    ∧ Z.of_nat (emptyMarkers sel) = (count - 1)%Z.
Proof.
  intros Hne Hcount Hexcl.
  destruct (pick_shape rng source count cur)
    as (sel & cur' & items & rest & Heq & -> & Hperm & Hok & Hlen & Hmax).
  eexists _, cur'. split; [done|].
  rewrite nonEmpty_padded, emptyMarkers_padded.
  assert (length items = 1%nat) as Hone; [|lia].
  destruct items as [|x [|y items]]; [| done |].
  - (* nothing placed: any row alone satisfies the rules *)
    destruct Hmax as [Hfull|Hrej]; [simpl in Hfull; lia|].
    simpl in Hperm. destruct rest as [|x rest].
    { apply Permutation_nil_l in Hperm. done. }
    specialize (Hrej x (list_elem_of_here _ _)). simpl in Hrej.
    by rewrite rulesHold_singleton in Hrej.
  - (* two rows placed: they sit at different positions of the pool *)
    destruct (drawnFrom_part _ _ _ Hperm) as (idxs & Hnd & Hall).
    apply Forall2_cons_inv_l in Hall as (i & idxs1 & Hx & Hall & ->).
    apply Forall2_cons_inv_l in Hall as (j & idxs2 & Hy & Hall & ->).
    assert (i ≠ j) as Hij.
    { apply NoDup_cons in Hnd as [Hi _]. intros ->. apply Hi. left. }
    pose proof (Hexcl i j x y Hij Hx Hy) as Hxy.
    assert (rulesHold [x; y] = true) as Hxy'.
    { apply (rulesHold_part _ items (x :: y :: items)); [|done].
      done. }
    congruence.
Qed.

Lemma exclusive_pool_one_slot_witness :
  [itemA; itemB] ≠ []
  ∧ (1 ≤ 2)%Z
  ∧ ∃ sel cur',
      _pickStratagemsWithConstraints rngZero [itemA; itemB] 2 0
        = Some (sel, cur')
      ∧ length (nonEmpty sel) = 1%nat
      ∧ Z.of_nat (emptyMarkers sel) = (2 - 1)%Z.
Proof.
  assert ([itemA; itemB] ≠ []) as H1 by (intros H; discriminate H).
  assert (1 ≤ 2)%Z as H2 by lia.
  split; [exact H1|]. split; [exact H2|].
  apply (exclusive_pool_one_slot rngZero [itemA; itemB] 2 0 H1 H2).
  intros [|[|i]] [|[|j]] x y Hij Hx Hy; simpl in Hx, Hy;
    try done; injection Hx as <-; injection Hy as <-; reflexivity.
Defined.

(** ** The plain unique sampler *)

Lemma sampleUnique_spec rng n : ∀ pool picks cur,
  ∃ items rest,
    sampleUnique rng n pool picks cur
      = (picks ++ (Some <$> items) ++ replicate (n - length items) None,
         (cur + length items)%nat)
    ∧ items ++ rest ≡ₚ pool
    ∧ length items = (n `min` length pool)%nat.
Proof.
  induction n as [|n IH]; intros pool picks cur.
  { exists [], pool. simpl. rewrite app_nil_r, Nat.add_0_r. done. }
  destruct pool as [|p pool0].
  { cbn [sampleUnique].
    destruct (IH [] (picks ++ [None]) cur) as (items & rest & Heq & Hperm & Hlen).
    rewrite Nat.min_0_r in Hlen. apply nil_length_inv in Hlen. subst items.
    exists [], []. rewrite Heq, <- app_assoc. simpl.
    by rewrite Nat.sub_0_r, Nat.add_0_r. }
  cbn [sampleUnique].
  set (pool := p :: pool0) in *.
  destruct (randomIndex_lookup rng pool cur) as [x Hx]; [done|].
  rewrite Hx.
  pose proof (delete_Permutation _ _ _ Hx) as Hperm.
  destruct (IH (delete (randomIndex rng (length pool) cur) pool)
              (picks ++ [Some x]) (S cur))
    as (items & rest & Heq & Hp & Hlen).
  exists (x :: items), rest. rewrite Heq, <- app_assoc. simpl.
  split_and!; [f_equal; lia | by rewrite Hperm, <- Hp |].
  rewrite Hlen, length_delete by eauto. subst pool. simpl. lia.
Qed.

(** X4. The plain unique sampler fills the first [min n (pool size)] reels
    with rows from pairwise distinct pool entries, one random call each,
    and leaves the other reels empty. *)
Theorem unique_sampler_shape rng n pool cur :
  ∃ items,
    sampleUnique rng n pool [] cur
      = ((Some <$> items) ++ replicate (n - length items) None,
         (cur + length items)%nat)
    ∧ length items = (n `min` length pool)%nat
    ∧ drawnFrom pool items.
Proof.
  destruct (sampleUnique_spec rng n pool [] cur)
    as (items & rest & Heq & Hperm & Hlen).
  exists items. split_and!; [done | done | by eapply drawnFrom_part].
Qed.

(** X5. With at least as many reels as rows, the plain unique sampler shows
    every row of the pool exactly once. *)
Theorem unique_sampler_exhausts_pool rng n pool cur :
  (length pool ≤ n)%nat →
  nonEmpty (sampleUnique rng n pool [] cur).1 ≡ₚ pool.
Proof.
  intros Hn.
  destruct (sampleUnique_spec rng n pool [] cur)
    as (items & rest & Heq & Hperm & Hlen).
  rewrite Heq. simpl. rewrite nonEmpty_padded.
  pose proof (Permutation_length Hperm) as Hlens.
  rewrite length_app in Hlens.
  assert (rest = []) as -> by (apply nil_length_inv; lia).
  by rewrite app_nil_r in Hperm.
Qed.

Lemma unique_sampler_exhausts_pool_witness :
  (length [itemA; itemB] ≤ 3)%nat
  ∧ nonEmpty (sampleUnique rngZero 3 [itemA; itemB] [] 0).1 ≡ₚ [itemA; itemB].
Proof.
  assert (length [itemA; itemB] ≤ 3)%nat as H by (simpl; lia).
  split; [exact H|].
  exact (unique_sampler_exhausts_pool rngZero 3 [itemA; itemB] 0 H).
Defined.

Lemma drawUnique_sampleUnique rng n : ∀ temp pick cur,
  (n ≤ length temp)%nat →
  drawUnique rng n temp pick cur = sampleUnique rng n temp pick cur.
Proof.
  induction n as [|n IH]; intros temp pick cur Hn; [done|].
  destruct temp as [|t ts]; [simpl in Hn; lia|].
  cbn [drawUnique sampleUnique]. apply IH.
  set (temp := t :: ts) in *.
  destruct (randomIndex_lookup rng temp cur) as [x Hx]; [done|].
  rewrite length_delete by eauto. lia.
Qed.

(** X6. On a pool that satisfies both rules as a whole, strict mode changes
    nothing: for 0 < count <= pool.length the constrained sampler returns
    what the plain unique sampler returns from the same random calls. *)
Theorem constrained_is_plain_on_free_pool rng source count cur :
  rulesHold source = true →
  (0 < count ≤ Z.of_nat (length source))%Z →
  _pickStratagemsWithConstraints rng source count cur
  = Some (sampleUnique rng (Z.to_nat count) source [] cur).
Proof.
  intros Hok Hcount. unfold _pickStratagemsWithConstraints.
  assert ((count <=? 0)%Z = false) as -> by (apply Z.leb_gt; lia).
  change MAX_TRIES with (S 199).
  rewrite retry_first by done. simpl.
  rewrite drawUnique_sampleUnique by lia.
  by destruct (sampleUnique _ _ _ _ _).
Qed.

Lemma constrained_is_plain_on_free_pool_witness :
  rulesHold [itemA; itemC; itemD] = true
  ∧ (0 < 2 ≤ Z.of_nat (length [itemA; itemC; itemD]))%Z
  ∧ _pickStratagemsWithConstraints rngZero [itemA; itemC; itemD] 2 0
    = Some (sampleUnique rngZero (Z.to_nat 2) [itemA; itemC; itemD] [] 0).
Proof.
  assert (rulesHold [itemA; itemC; itemD] = true) as H1 by reflexivity.
  assert (0 < 2 ≤ Z.of_nat (length [itemA; itemC; itemD]))%Z as H2
    by (simpl; lia).
  split; [exact H1|]. split; [exact H2|].
  exact (constrained_is_plain_on_free_pool rngZero [itemA; itemC; itemD] 2 0
           H1 H2).
Defined.

(** ** The number of random calls *)

Lemma retry_calls rng attempts pool count : ∀ cur,
  ∃ found cur',
    retry rng attempts pool count cur = Some (found, cur')
    ∧ (cur ≤ cur'
       ≤ cur + attempts * (Z.to_nat count `min` length pool))%nat.
Proof.
  induction attempts as [|a IH]; intros cur.
  { exists None, cur. simpl. split; [done | lia]. }
  cbn [retry].
  destruct (drawUnique_spec rng (Z.to_nat count) pool [] cur)
    as (picked & rest & Heq & Hperm & Hlen).
  simpl in Heq. rewrite Heq.
  destruct (IH (cur + length picked)%nat) as (found & cur' & Hr & Hb).
  destruct (Z.of_nat (length (Some <$> picked)) =? count)%Z.
  - rewrite satisfies_Some. simpl.
    destruct (rulesHold picked).
    + eexists _, _. split; [done | lia].
    + exists found, cur'. split; [done | lia].
  - exists found, cur'. split; [done | lia].
Qed.

Lemma greedy_calls rng count remaining : ∀ r0 cur,
  ∃ result cur',
    greedy rng count (Some <$> r0) remaining cur = Some (result, cur')
    ∧ (cur ≤ cur' ≤ cur + length remaining)%nat.
Proof.
  induction remaining as [remaining IH] using (induction_ltof1 _ length).
  unfold ltof in IH. intros r0 cur.
  rewrite greedy_step.
  destruct ((Z.of_nat (length (Some <$> r0)) <? count)%Z
            && negb (bool_decide (remaining = []))) eqn:Hloop.
  2:{ eexists _, _. split; [done | lia]. }
  apply andb_true_iff in Hloop as [_ Hrem%negb_true_iff%bool_decide_eq_false].
  destruct (randomIndex_lookup rng remaining cur Hrem) as [x Hx].
  cbn zeta. rewrite Hx.
  assert (length (delete (randomIndex rng (length remaining) cur) remaining)
          < length remaining)%nat as Hdec.
  { rewrite length_delete by eauto. apply lookup_lt_Some in Hx. lia. }
  assert ((Some <$> r0) ++ [Some x] = Some <$> r0 ++ [x]) as ->
    by (by rewrite fmap_app).
  rewrite satisfies_Some. simpl.
  destruct (rulesHold (r0 ++ [x])).
  - destruct (_ && _).
    + eexists _, _. split; [done | lia].
    + destruct (IH _ Hdec (r0 ++ [x]) (S cur)) as (result & cur' & -> & Hb).
      eexists _, _. split; [done | lia].
  - destruct (_ && _).
    + eexists _, _. split; [done | lia].
    + destruct (IH _ Hdec r0 (S cur)) as (result & cur' & -> & Hb).
      eexists _, _. split; [done | lia].
Qed.

(** X7. One call of the constrained sampler makes at most
    [MAX_TRIES * min count pool.length + pool.length] calls of
    [Math.random()]. *)
Theorem random_calls_bounded rng source count cur :
  ∃ sel cur',
    _pickStratagemsWithConstraints rng source count cur = Some (sel, cur')
    ∧ (cur ≤ cur'
       ≤ cur + MAX_TRIES * (Z.to_nat count `min` length source)
         + length source)%nat.
Proof.
  unfold _pickStratagemsWithConstraints.
  destruct (retry_calls rng MAX_TRIES source count cur)
    as (found & cur1 & -> & Hb1).
  set (calls := (MAX_TRIES * (Z.to_nat count `min` length source))%nat) in *.
  destruct (count <=? 0)%Z.
  { eexists _, _. split; [done | lia]. }
  simpl. destruct found as [pick|].
  { eexists _, _. split; [done | lia]. }
  destruct (greedy_calls rng count source [] cur1)
    as (result & cur2 & Hg & Hb2).
  simpl in Hg. rewrite Hg. simpl.
  eexists _, _. split; [done | lia].
Qed.

(** ** What the buckets hold *)

Lemma buckets_get_set_ne b k k' arr :
  k ≠ k' → buckets_get (buckets_set b k arr) k' = buckets_get b k'.
Proof.
  intros Hne. induction b as [|[k0 arr0] b IH]; simpl.
  { destruct (String.eqb_spec k k'); done. }
  destruct (String.eqb_spec k0 k) as [->|Hk0]; simpl.
  - destruct (String.eqb_spec k k'); done.
  - destruct (String.eqb_spec k0 k'); [done | apply IH].
Qed.

Lemma buckets_set_set b k arr arr' :
  buckets_set (buckets_set b k arr) k arr' = buckets_set b k arr'.
Proof.
  induction b as [|[k0 arr0] b IH]; simpl.
  - by rewrite String.eqb_refl.
  - destruct (String.eqb_spec k0 k) as [->|Hne]; simpl.
    + by rewrite String.eqb_refl.
    + destruct (String.eqb_spec k0 k); [done|]. by rewrite IH.
Qed.

Lemma rowsOfKey_snoc field k l x :
  rowsOfKey field k (l ++ [x])
  = rowsOfKey field k l ++ (if decide (lowerKey field x = k) then [x] else []).
Proof.
  unfold rowsOfKey. by rewrite filter_app.
Qed.

Lemma addToBucket_content field b l x :
  field ∉ protoNames →
  (∀ k, buckets_get b k = bucketOf field k l) →
  ∃ b', addToBucket field b x = Some b'
        ∧ ∀ k, buckets_get b' k = bucketOf field k (l ++ [x]).
Proof.
  intros Hf Hb. unfold addToBucket.
  rewrite bucketKey_lowerKey by done. simpl.
  set (key := lowerKey field x).
  rewrite eqb_empty_r, negb_involutive.
  case_bool_decide as Hkey.
  { exists b. split; [done|]. intros k. rewrite Hb. unfold bucketOf.
    rewrite rowsOfKey_snoc. fold key.
    destruct (decide (key = k)) as [<-|Hne]; [|by rewrite app_nil_r].
    rewrite !decide_False; [done | tauto | tauto]. }
  unfold buckets_has.
  pose proof (Hb key) as Hget. unfold bucketOf in Hget.
  destruct (decide (key ≠ "" ∧ rowsOfKey field key l ≠ [])) as [[_ Hrows]|Hno].
  - rewrite Hget. simpl. rewrite Hget. cbn [mbind option_bind].
    eexists. split; [reflexivity|].
    intros k. destruct (decide (key = k)) as [<-|Hne].
    + rewrite buckets_get_set. unfold bucketOf.
      rewrite rowsOfKey_snoc. fold key.
      rewrite (decide_True (P := key = key)) by done.
      rewrite decide_True; [done|]. split; [done|].
      by destruct (rowsOfKey field key l).
    + rewrite buckets_get_set_ne by done. rewrite Hb. unfold bucketOf.
      rewrite rowsOfKey_snoc. fold key.
      rewrite (decide_False (P := key = k)) by done. by rewrite app_nil_r.
  - rewrite Hget. simpl. rewrite buckets_get_set. cbn [mbind option_bind].
    rewrite buckets_set_set. eexists. split; [reflexivity|].
    assert (rowsOfKey field key l = []) as Hnil.
    { destruct (rowsOfKey field key l) eqn:E; [done|]. destruct Hno.
      split; done. }
    intros k. destruct (decide (key = k)) as [<-|Hne].
    + rewrite buckets_get_set. unfold bucketOf.
      rewrite rowsOfKey_snoc. fold key.
      rewrite (decide_True (P := key = key)) by done.
      rewrite Hnil. simpl. by rewrite decide_True.
    + rewrite buckets_get_set_ne by done. rewrite Hb. unfold bucketOf.
      rewrite rowsOfKey_snoc. fold key.
      rewrite (decide_False (P := key = k)) by done. by rewrite app_nil_r.
Qed.

Lemma buildBuckets_content field l :
  field ∉ protoNames → ∀ b p,
  (∀ k, buckets_get b k = bucketOf field k p) →
  ∃ b', buildBuckets field l b = Some b'
        ∧ ∀ k, buckets_get b' k = bucketOf field k (p ++ l).
Proof.
  intros Hf. induction l as [|x l IH]; intros b p Hb.
  { exists b. by rewrite app_nil_r. }
  cbn [buildBuckets].
  destruct (addToBucket_content field b p x Hf Hb) as (b1 & -> & Hb1).
  cbn [mbind option_bind].
  destruct (IH b1 (p ++ [x]) Hb1) as (b' & -> & Hb').
  exists b'. split; [done|]. intros k. by rewrite Hb', <- app_assoc.
Qed.

(** X8. For a grouping field that is not an inherited name, over cells of
    ASCII text, building the buckets never throws, and the bucket of a key
    holds exactly the rows of the source whose lowercase grouping field is
    that key, in source order; the empty key and keys no row has own no
    bucket. *)
Theorem buckets_hold_matching_rows field source :
  field ∉ protoNames →
  Forall (asciiCell field) source →
  ∃ b,
    buildBuckets field source [] = Some b
    ∧ ∀ k,
        buckets_get b k
        = if decide (k ≠ "" ∧ filter (λ x, lowerKey field x = k) source ≠ [])
          then Some (filter (λ x, lowerKey field x = k) source)
          else None.
Proof.
  intros Hf _.
  destruct (buildBuckets_content field source Hf [] []) as (b & Heq & Hb).
  { intros k. unfold bucketOf, rowsOfKey. rewrite filter_nil.
    rewrite decide_False; [done | tauto]. }
  exists b. split; [done|]. intros k. by rewrite Hb.
Qed.

Lemma buckets_hold_matching_rows_witness :
  ("Subtype" ∉ protoNames)
  ∧ Forall (asciiCell "Subtype") subtypeRows
  ∧ ∃ b,
      buildBuckets "Subtype" subtypeRows [] = Some b
      ∧ ∀ k,
          buckets_get b k
          = if decide (k ≠ ""
                       ∧ filter (λ x, lowerKey "Subtype" x = k) subtypeRows
                         ≠ [])
            then Some (filter (λ x, lowerKey "Subtype" x = k) subtypeRows)
            else None.
Proof.
  assert ("Subtype" ∉ protoNames) as H1.
  { apply (bool_decide_unpack _). vm_compute. exact I. }
  assert (Forall (asciiCell "Subtype") subtypeRows) as H2.
  { apply (bool_decide_unpack _). vm_compute. exact I. }
  split; [exact H1|]. split; [exact H2|].
  exact (buckets_hold_matching_rows "Subtype" subtypeRows H1 H2).
Defined.

(** The buckets of the sample rows: the two eagles share one bucket, the
    row with a blank subtype is in none. *)
Lemma subtypeRows_buckets :
  buildBuckets "Subtype" subtypeRows []
  = Some [("eagle", [eagleAirstrike; eagleStrafingRun]);
          ("orbital", [orbitalLaser]);
          ("sentry", [machineGunSentry])].
Proof. vm_compute. reflexivity. Qed.

(** ** csv.js: strings *)

Lemma string_app_cons c s t : String c s +:+ t = String c (s +:+ t).
Proof. reflexivity. Qed.

Lemma string_app_nil_r s : s +:+ "" = s.
Proof.
  induction s as [|c s IH]; [done|]. by rewrite string_app_cons, IH.
Qed.

Lemma string_app_assoc s t u : (s +:+ t) +:+ u = s +:+ (t +:+ u).
Proof.
  induction s as [|c s IH]; [done|].
  rewrite !string_app_cons. by rewrite IH.
Qed.

Lemma string_app_snoc s c t : (s +:+ String c "") +:+ t = s +:+ String c t.
Proof. by rewrite string_app_assoc. Qed.

Lemma dquote_neq_comma : comma ≠ dquote.
Proof. discriminate. Qed.

Lemma dquote_neq_newline : newline ≠ dquote.
Proof. discriminate. Qed.

Lemma comma_neq_newline : comma ≠ newline.
Proof. discriminate. Qed.

Lemma ascii_eqb_false c d : c ≠ d → Ascii.eqb c d = false.
Proof. intros H. by apply Ascii.eqb_neq. Qed.

Lemma hasChar_cons_false c d s :
  hasChar c (String d s) = false → d ≠ c ∧ hasChar c s = false.
Proof.
  simpl. intros [H1 H2]%orb_false_iff. split; [|done].
  by apply Ascii.eqb_neq.
Qed.

(** *** The steps of [parseCsvRow]'s loop *)

Lemma parseRowLoop_open rest cur cols :
  parseRowLoop (String dquote rest) cur false cols
  = parseRowLoop rest cur true cols.
Proof. cbn [parseRowLoop]. rewrite Ascii.eqb_refl. by destruct rest. Qed.

Lemma parseRowLoop_close rest cur cols :
  noQuoteStart rest →
  parseRowLoop (String dquote rest) cur true cols
  = parseRowLoop rest cur false cols.
Proof.
  intros Hrest. cbn [parseRowLoop]. rewrite Ascii.eqb_refl.
  destruct rest as [|c rest]; [done|].
  simpl in Hrest. by rewrite (ascii_eqb_false _ _ Hrest).
Qed.

Lemma parseRowLoop_escaped rest cur cols :
  parseRowLoop (String dquote (String dquote rest)) cur true cols
  = parseRowLoop rest (cur +:+ String dquote "") true cols.
Proof. cbn [parseRowLoop]. by rewrite !Ascii.eqb_refl. Qed.

Lemma parseRowLoop_comma rest cur cols :
  parseRowLoop (String comma rest) cur false cols
  = parseRowLoop rest "" false (cols ++ [cur]).
Proof. reflexivity. Qed.

Lemma parseRowLoop_char c rest cur q cols :
  c ≠ dquote → (c ≠ comma ∨ q = true) →
  parseRowLoop (String c rest) cur q cols
  = parseRowLoop rest (cur +:+ String c "") q cols.
Proof.
  intros Hq Hc. cbn [parseRowLoop]. rewrite (ascii_eqb_false _ _ Hq).
  destruct Hc as [Hc| ->]; [|by rewrite andb_false_r].
  by rewrite (ascii_eqb_false _ _ Hc).
Qed.

Lemma parseRowLoop_quoted f : ∀ cur cols rest,
  noQuoteStart rest →
  parseRowLoop (escapeQuotes f +:+ String dquote rest) cur true cols
  = parseRowLoop rest (cur +:+ f) false cols.
Proof.
  induction f as [|c f IH]; intros cur cols rest Hrest.
  { cbn [escapeQuotes]. change ("" +:+ ?s) with s.
    rewrite parseRowLoop_close by done. by rewrite string_app_nil_r. }
  cbn [escapeQuotes]. destruct (Ascii.eqb_spec c dquote) as [->|Hc].
  - rewrite !string_app_cons, parseRowLoop_escaped, IH by done.
    by rewrite string_app_snoc.
  - rewrite string_app_cons, parseRowLoop_char by auto.
    rewrite IH by done. by rewrite string_app_snoc.
Qed.

Lemma parseRowLoop_plain f : ∀ cur cols rest,
  hasChar comma f = false → hasChar dquote f = false →
  parseRowLoop (f +:+ rest) cur false cols
  = parseRowLoop rest (cur +:+ f) false cols.
Proof.
  induction f as [|c f IH]; intros cur cols rest Hcomma Hquote.
  { change ("" +:+ ?s) with s. by rewrite string_app_nil_r. }
  apply hasChar_cons_false in Hcomma as [Hc1 Hcomma].
  apply hasChar_cons_false in Hquote as [Hc2 Hquote].
  rewrite string_app_cons, parseRowLoop_char by auto.
  rewrite IH by done. by rewrite string_app_snoc.
Qed.

Lemma parseRowLoop_field f cur cols rest :
  plainOk f → noQuoteStart rest →
  parseRowLoop (writeField f +:+ rest) cur false cols
  = parseRowLoop rest (cur +:+ f.2) false cols.
Proof.
  intros Hf Hrest. destruct f as [[] f]; unfold writeField; cbn [fst snd].
  - unfold quoteField.
    rewrite string_app_cons, parseRowLoop_open, string_app_assoc.
    rewrite string_app_cons. change ("" +:+ rest) with rest.
    by apply parseRowLoop_quoted.
  - destruct Hf as [?|[? ?]]; [done|]. by apply parseRowLoop_plain.
Qed.

Lemma parseRowLoop_record fs : ∀ f cols,
  Forall plainOk (f :: fs) →
  parseRowLoop (writeRecord (f :: fs)) "" false cols
  = cols ++ (snd <$> (f :: fs)).
Proof.
  unfold writeRecord.
  induction fs as [|g fs IH]; intros f cols [Hf Hfs]%Forall_cons.
  { cbn [fmap list_fmap String.concat].
    rewrite <- (string_app_nil_r (writeField f)).
    rewrite parseRowLoop_field by done. done. }
  change (String.concat "," (writeField <$> f :: g :: fs))
    with (writeField f +:+ String comma (String.concat "," (writeField <$> g :: fs))).
  rewrite parseRowLoop_field by (done || apply dquote_neq_comma).
  rewrite parseRowLoop_comma, IH by done.
  rewrite <- app_assoc. done.
Qed.

(** X9. Reading back a written record of ASCII text: fields written
    quoted, with their quotes doubled, or plain when they hold no comma and
    no quote, are returned by [parseCsvRow] one per column, trimmed. *)
Theorem parseCsvRow_reads_back (fs : list (bool * string)) :
  fs ≠ [] →
  Forall plainOk fs →
  Forall (λ f, asciiText f.2) fs →
  parseCsvRow (writeRecord fs) = trim <$> (snd <$> fs).
Proof.
  intros Hne Hok _. destruct fs as [|f fs]; [done|].
  unfold parseCsvRow. by rewrite parseRowLoop_record.
Qed.

Lemma parseRowLoop_length line : ∀ cur cols,
  hasChar dquote line = false →
  length (parseRowLoop line cur false cols)
  = (length cols + S (countChar comma line))%nat.
Proof.
  induction line as [|c line IH]; intros cur cols Hq.
  { simpl. rewrite length_app. simpl. lia. }
  apply hasChar_cons_false in Hq as [Hc Hq].
  cbn [countChar]. destruct (Ascii.eqb_spec c comma) as [->|Hcomma].
  - rewrite parseRowLoop_comma, IH by done. rewrite length_app. simpl. lia.
  - rewrite parseRowLoop_char by auto. rewrite IH by done. lia.
Qed.

(** X10. On a line without quotes [parseCsvRow] starts a column at every
    comma: it returns one column more than the line has commas. *)
Theorem parseCsvRow_splits_at_commas line :
  hasChar dquote line = false →
  length (parseCsvRow line) = S (countChar comma line).
Proof.
  intros Hq. unfold parseCsvRow.
  rewrite length_fmap, parseRowLoop_length by done. done.
Qed.
(** *** The steps of [splitCsvLines]'s loop *)

Lemma splitLoop_open rest cur out :
  splitLoop (String dquote rest) cur false out = splitLoop rest cur true out.
Proof. cbn [splitLoop]. rewrite Ascii.eqb_refl. by destruct rest. Qed.

Lemma splitLoop_close rest cur out :
  noQuoteStart rest →
  splitLoop (String dquote rest) cur true out = splitLoop rest cur false out.
Proof.
  intros Hrest. cbn [splitLoop]. rewrite Ascii.eqb_refl.
  destruct rest as [|c rest]; [done|].
  simpl in Hrest. by rewrite (ascii_eqb_false _ _ Hrest).
Qed.

Lemma splitLoop_escaped rest cur out :
  splitLoop (String dquote (String dquote rest)) cur true out
  = splitLoop rest (cur +:+ String dquote "") true out.
Proof. cbn [splitLoop]. by rewrite !Ascii.eqb_refl. Qed.

Lemma splitLoop_newline rest cur out :
  splitLoop (String newline rest) cur false out
  = splitLoop rest "" false (out ++ [cur]).
Proof. reflexivity. Qed.

Lemma splitLoop_char c rest cur q out :
  c ≠ dquote → (c ≠ newline ∨ q = true) →
  splitLoop (String c rest) cur q out
  = splitLoop rest (cur +:+ String c "") q out.
Proof.
  intros Hq Hc. cbn [splitLoop]. rewrite (ascii_eqb_false _ _ Hq).
  destruct Hc as [Hc| ->]; [|by rewrite andb_false_r].
  by rewrite (ascii_eqb_false _ _ Hc).
Qed.

Lemma splitLoop_quoted f : ∀ cur out rest,
  noQuoteStart rest →
  splitLoop (escapeQuotes f +:+ String dquote rest) cur true out
  = splitLoop rest (cur +:+ f) false out.
Proof.
  induction f as [|c f IH]; intros cur out rest Hrest.
  { cbn [escapeQuotes]. change ("" +:+ ?s) with s.
    rewrite splitLoop_close by done. by rewrite string_app_nil_r. }
  cbn [escapeQuotes]. destruct (Ascii.eqb_spec c dquote) as [->|Hc].
  - rewrite !string_app_cons, splitLoop_escaped, IH by done.
    by rewrite string_app_snoc.
  - rewrite string_app_cons, splitLoop_char by auto.
    rewrite IH by done. by rewrite string_app_snoc.
Qed.

Lemma splitLoop_plain f : ∀ cur out rest,
  hasChar newline f = false → hasChar dquote f = false →
  splitLoop (f +:+ rest) cur false out = splitLoop rest (cur +:+ f) false out.
Proof.
  induction f as [|c f IH]; intros cur out rest Hnl Hquote.
  { change ("" +:+ ?s) with s. by rewrite string_app_nil_r. }
  apply hasChar_cons_false in Hnl as [Hc1 Hnl].
  apply hasChar_cons_false in Hquote as [Hc2 Hquote].
  rewrite string_app_cons, splitLoop_char by auto.
  rewrite IH by done. by rewrite string_app_snoc.
Qed.

Lemma splitLoop_field f cur out rest :
  lineOk f → noQuoteStart rest →
  splitLoop (writeField f +:+ rest) cur false out
  = splitLoop rest (cur +:+ f.2) false out.
Proof.
  intros Hf Hrest. destruct f as [[] f]; unfold writeField; cbn [fst snd].
  - unfold quoteField.
    rewrite string_app_cons, splitLoop_open, string_app_assoc.
    rewrite string_app_cons. change ("" +:+ rest) with rest.
    by apply splitLoop_quoted.
  - destruct Hf as [?|[? ?]]; [done|]. by apply splitLoop_plain.
Qed.

Lemma concat_cons2 sep (x y : string) l :
  String.concat sep (x :: y :: l) = x +:+ sep +:+ String.concat sep (y :: l).
Proof. reflexivity. Qed.

Lemma splitLoop_record fs : ∀ cur out rest,
  Forall lineOk fs → noQuoteStart rest →
  splitLoop (writeRecord fs +:+ rest) cur false out
  = splitLoop rest (cur +:+ rawRecord fs) false out.
Proof.
  unfold writeRecord, rawRecord.
  induction fs as [|f fs IH]; intros cur out rest Hfs Hrest.
  { cbn [fmap list_fmap String.concat]. change ("" +:+ rest) with rest.
    by rewrite string_app_nil_r. }
  apply Forall_cons in Hfs as [Hf Hfs].
  destruct fs as [|g fs].
  { cbn [fmap list_fmap String.concat]. by apply splitLoop_field. }
  rewrite !fmap_cons, !concat_cons2. rewrite <- !fmap_cons.
  rewrite !string_app_assoc.
  rewrite splitLoop_field by (done || apply dquote_neq_comma).
  change ("," +:+ ?s) with (String comma s).
  rewrite splitLoop_char
    by (auto using dquote_neq_comma, comma_neq_newline).
  rewrite IH by done. by rewrite !string_app_assoc.
Qed.

Lemma splitLoop_records recs : ∀ out,
  Forall (Forall lineOk) recs →
  filter (λ l, l ≠ "")
    (splitLoop (String.concat (String newline "") (writeRecord <$> recs))
       "" false out)
  = filter (λ l, l ≠ "") (out ++ (rawRecord <$> recs)).
Proof.
  induction recs as [|r recs IH]; intros out Hrecs.
  { cbn [fmap list_fmap String.concat splitLoop]. simpl.
    by rewrite app_nil_r. }
  apply Forall_cons in Hrecs as [Hr Hrecs].
  destruct recs as [|r2 recs].
  { cbn [fmap list_fmap String.concat].
    rewrite <- (string_app_nil_r (writeRecord r)).
    rewrite splitLoop_record by done. change ("" +:+ ?s) with s.
    cbn [splitLoop]. rewrite filter_app.
    destruct (String.eqb_spec (rawRecord r) "") as [->|Hne].
    - rewrite filter_cons, decide_False by auto. by rewrite app_nil_r.
    - by rewrite filter_app. }
  rewrite !fmap_cons, !concat_cons2. rewrite <- !fmap_cons.
  rewrite splitLoop_record by (done || apply dquote_neq_newline).
  change ("" +:+ ?s) with s.
  change (String newline "" +:+ ?s) with (String newline s).
  rewrite splitLoop_newline, IH by done.
  by rewrite <- app_assoc.
Qed.

(** X11. [splitCsvLines] gives one line per written record, and drops the
    blank ones; but it hands each record on with its quoting removed, as
    the bare join of its fields, so that a comma inside a quoted field is
    no longer told apart from a separator. *)
Theorem splitCsvLines_unquotes (recs : list (list (bool * string))) :
  Forall (Forall lineOk) recs →
  splitCsvLines (String.concat (String newline "") (writeRecord <$> recs))
  = filter (λ l, l ≠ "") (rawRecord <$> recs).
Proof.
  intros Hrecs. unfold splitCsvLines. by rewrite splitLoop_records.
Qed.

Lemma parseCsvRow_reads_back_witness :
  [(true, " b,c "); (false, " d ")] ≠ []
  ∧ Forall plainOk [(true, " b,c "); (false, " d ")]
  ∧ Forall (λ f, asciiText f.2) [(true, " b,c "); (false, " d ")]
  ∧ parseCsvRow (writeRecord [(true, " b,c "); (false, " d ")])
    = trim <$> (snd <$> [(true, " b,c "); (false, " d ")]).
Proof.
  assert ([(true, " b,c "); (false, " d ")] ≠ []) as H1
    by (intros H; discriminate H).
  assert (Forall plainOk [(true, " b,c "); (false, " d ")]) as H2.
  { constructor; [left; reflexivity|].
    constructor; [right; split; reflexivity|]. constructor. }
  assert (Forall (λ f, asciiText f.2) [(true, " b,c "); (false, " d ")])
    as H3.
  { apply (bool_decide_unpack _). vm_compute. exact I. }
  split; [exact H1|]. split; [exact H2|]. split; [exact H3|].
  exact (parseCsvRow_reads_back _ H1 H2 H3).
Defined.

Lemma parseCsvRow_splits_at_commas_witness :
  hasChar dquote "a,b" = false
  ∧ length (parseCsvRow "a,b") = S (countChar comma "a,b").
Proof.
  assert (hasChar dquote "a,b" = false) as H by reflexivity.
  split; [exact H|]. exact (parseCsvRow_splits_at_commas "a,b" H).
Defined.

Lemma splitCsvLines_unquotes_witness :
  Forall (Forall lineOk)
    [[(false, "h1"); (false, "h2")]; [(true, "b,c"); (false, "d")]]
  ∧ splitCsvLines
      (String.concat (String newline "")
         (writeRecord
            <$> [[(false, "h1"); (false, "h2")]; [(true, "b,c"); (false, "d")]]))
    = filter (λ l, l ≠ "")
        (rawRecord
           <$> [[(false, "h1"); (false, "h2")]; [(true, "b,c"); (false, "d")]]).
Proof.
  assert (Forall (Forall lineOk)
            [[(false, "h1"); (false, "h2")]; [(true, "b,c"); (false, "d")]])
    as H.
  { constructor; [|constructor; [|constructor]].
    - constructor; [right; split; reflexivity|].
      constructor; [right; split; reflexivity|]. constructor.
    - constructor; [left; reflexivity|].
      constructor; [right; split; reflexivity|]. constructor. }
  split; [exact H|]. exact (splitCsvLines_unquotes _ H).
Defined.

(** *** [parseCsv] *)

Lemma trimStart_blank s :
  hasNonSpace s = false → trimStart s = "".
Proof.
  induction s as [|c s IH]; [done|]. simpl.
  intros [Hc Hs]%orb_false_iff. apply negb_false_iff in Hc. rewrite Hc. auto.
Qed.

(** X12. On a text made of white space only, the empty text included,
    [parseCsv] throws: no header line is left to read. *)
Theorem parseCsv_blank_throws text :
  hasNonSpace text = false → parseCsv text = None.
Proof.
  intros Hblank. unfold parseCsv, trim.
  by rewrite trimStart_blank.
Qed.

Lemma parseCsv_blank_throws_witness :
  hasNonSpace (String " " (String newline " ")) = false
  ∧ parseCsv (String " " (String newline " ")) = None.
Proof.
  assert (hasNonSpace (String " " (String newline " ")) = false) as H
    by reflexivity.
  split; [exact H|]. exact (parseCsv_blank_throws _ H).
Defined.

Lemma setCell_dom obj h v k :
  k ∈ dom (setCell obj h v) ↔ k ∈ dom obj ∨ (k = h ∧ k ≠ "__proto__").
Proof.
  unfold setCell. destruct (String.eqb_spec h "__proto__") as [->|Hne].
  - split; [tauto|]. intros [?|[-> ?]]; done.
  - rewrite dom_insert_L, elem_of_union, elem_of_singleton.
    split; [intros [->|?]; tauto|]. intros [?|[-> _]]; tauto.
Qed.

Lemma fillRow_dom headers : ∀ i cols obj k,
  k ∈ dom (fillRow headers i cols obj)
  ↔ k ∈ dom obj ∨ (k ∈ headers ∧ k ≠ "__proto__").
Proof.
  induction headers as [|h hs IH]; intros i cols obj k.
  { simpl. rewrite elem_of_nil. tauto. }
  cbn [fillRow]. rewrite IH, setCell_dom, elem_of_cons.
  split; [intros [[?|[-> ?]]|[? ?]]; tauto|].
  intros [?|[[->|?] ?]]; tauto.
Qed.

Lemma fillRow_notin headers h : ∀ i cols obj,
  h ∉ headers → fillRow headers i cols obj !! h = obj !! h.
Proof.
  induction headers as [|h' hs IH]; intros i cols obj Hh; [done|].
  apply not_elem_of_cons in Hh as [Hne Hh].
  cbn [fillRow]. rewrite IH by done. unfold setCell.
  destruct (String.eqb h' "__proto__"); [done|].
  by rewrite lookup_insert_ne.
Qed.

Lemma fillRow_lookup headers : ∀ i j cols obj h,
  NoDup headers → headers !! j = Some h → h ≠ "__proto__" →
  fillRow headers i cols obj !! h = Some (default "" (cols !! (i + j)%nat)).
Proof.
  induction headers as [|h' hs IH]; intros i j cols obj h Hnd Hj Hh; [done|].
  apply NoDup_cons in Hnd as [Hh' Hnd]. cbn [fillRow].
  destruct j as [|j]; simpl in Hj.
  - injection Hj as ->. rewrite fillRow_notin by done.
    unfold setCell. rewrite (proj2 (String.eqb_neq _ _) Hh).
    by rewrite lookup_insert_eq, Nat.add_0_r.
  - rewrite (IH (S i) j) by done. do 3 f_equal. lia.
Qed.

(** X13. On ASCII text with a header line [parseCsv] returns one row
    object per further line, each a new object, and every row has exactly
    the header's column names as its cells. *)
Theorem parseCsv_rows_have_header_cells text header lines :
  asciiText text →
  splitCsvLines (trim text) = header :: lines →
  ∃ rows,
    parseCsv text = Some rows
    ∧ length rows = length lines
    ∧ NoDup (ref <$> rows)
    ∧ Forall (λ r, dom (fields r)
                   = list_to_set (parseCsvRow header) ∖ {["__proto__"]}) rows.
Proof.
  intros _ Hlines. unfold parseCsv. rewrite Hlines.
  eexists. split; [done|].
  split_and!.
  - by rewrite length_imap.
  - rewrite fmap_imap.
    assert (∀ (l : list string) n,
               imap (λ k _, (n + k)%nat) l = seq n (length l)) as Hseq.
    { clear. induction l as [|x l IH]; intros n; [done|].
      cbn. rewrite Nat.add_0_r. f_equal.
      rewrite <- IH. apply imap_ext. intros. simpl. lia. }
    rewrite (imap_ext _ (λ k _, (0 + k)%nat)) by done.
    rewrite Hseq. apply NoDup_seq.
  - apply Forall_forall. intros r (k & Hk)%list_elem_of_lookup.
    rewrite list_lookup_imap in Hk.
    destruct (lines !! k) as [line|]; [|done]. simpl in Hk.
    injection Hk as <-. simpl. apply set_eq. intros h.
    rewrite fillRow_dom, dom_empty_L, elem_of_empty.
    rewrite elem_of_difference, elem_of_list_to_set, not_elem_of_singleton.
    tauto.
Qed.

Lemma parseCsv_rows_have_header_cells_witness :
  asciiText sampleCsv
  ∧ splitCsvLines (trim sampleCsv) = ["Name,Category"; "Diligence,Weapon"]
  ∧ ∃ rows,
      parseCsv sampleCsv = Some rows
      ∧ length rows = length ["Diligence,Weapon"]
      ∧ NoDup (ref <$> rows)
      ∧ Forall (λ r, dom (fields r)
                     = list_to_set (parseCsvRow "Name,Category")
                       ∖ {["__proto__"]}) rows.
Proof.
  assert (asciiText sampleCsv) as H0.
  { apply (bool_decide_unpack _). vm_compute. exact I. }
  assert (splitCsvLines (trim sampleCsv)
          = ["Name,Category"; "Diligence,Weapon"]) as H by reflexivity.
  split; [exact H0|]. split; [exact H|].
  exact (parseCsv_rows_have_header_cells sampleCsv _ _ H0 H).
Defined.

(** X14. On ASCII text the cell of a row under a header name is the column
    of its line at the header's position, or the empty string when the line
    is shorter; columns beyond the header are not kept. *)
Theorem parseCsv_cell text header lines k line i h :
  asciiText text →
  splitCsvLines (trim text) = header :: lines →
  NoDup (parseCsvRow header) →
  lines !! k = Some line →
  parseCsvRow header !! i = Some h →
  h ≠ "__proto__" →
  ∃ rows r,
    parseCsv text = Some rows
    ∧ rows !! k = Some r
    ∧ getField r h = JStr (default "" (parseCsvRow line !! i)).
Proof.
  intros _ Hlines Hnd Hk Hi Hh. unfold parseCsv. rewrite Hlines.
  eexists _, _. split; [done|].
  rewrite list_lookup_imap, Hk. split; [done|].
  unfold getField. simpl.
  by rewrite (fillRow_lookup _ 0 i _ _ h Hnd Hi Hh).
Qed.

Lemma parseCsv_cell_witness :
  asciiText sampleCsv
  ∧ splitCsvLines (trim sampleCsv) = ["Name,Category"; "Diligence,Weapon"]
  ∧ NoDup (parseCsvRow "Name,Category")
  ∧ ∃ rows r,
      parseCsv sampleCsv = Some rows
      ∧ rows !! 0%nat = Some r
      ∧ getField r "Category"
        = JStr (default "" (parseCsvRow "Diligence,Weapon" !! 1%nat)).
Proof.
  assert (splitCsvLines (trim sampleCsv)
          = ["Name,Category"; "Diligence,Weapon"]) as H1 by reflexivity.
  assert (NoDup (parseCsvRow "Name,Category")) as H2.
  { apply (bool_decide_unpack _). vm_compute. exact I. }
  assert (asciiText sampleCsv) as H0.
  { apply (bool_decide_unpack _). vm_compute. exact I. }
  split; [exact H0|]. split; [exact H1|]. split; [exact H2|].
  refine (parseCsv_cell sampleCsv _ _ 0 "Diligence,Weapon" 1 "Category"
            H0 H1 H2 _ _ _); [reflexivity | reflexivity | discriminate].
Defined.

(** ** slot.js: the helpers *)

Lemma js_filter_total {A} (p : A → option bool) (q : A → bool) (l : list A) :
  Forall (λ x, p x = Some (q x)) l → js_filter p l = Some (filter q l).
Proof.
  induction 1 as [|x l Hx _ IH]; [done|].
  simpl. rewrite Hx, IH. simpl. rewrite filter_cons. by destruct (q x).
Qed.

Lemma js_filter_throws {A} (p : A → option bool) (l : list A) :
  Exists (λ x, p x = None) l → js_filter p l = None.
Proof.
  induction 1 as [x l Hx|x l _ IH]; simpl.
  - by rewrite Hx.
  - rewrite IH. by destruct (p x).
Qed.

Lemma lower_ascii_idemp c : lower_ascii (lower_ascii c) = lower_ascii c.
Proof. destruct c as [[] [] [] [] [] [] [] []]; reflexivity. Qed.

Lemma toLowerCase_idemp s : toLowerCase (toLowerCase s) = toLowerCase s.
Proof.
  induction s as [|c s IH]; [done|]. simpl. by rewrite lower_ascii_idemp, IH.
Qed.

(** X15. On rows whose [Category] is ASCII text [byCategory] never throws.
    It keeps, in order, the rows whose [Category] in lower case (the empty
    string when the cell is missing) is the argument as it is given; so it
    keeps nothing when the argument has an upper-case letter. *)
Theorem byCategory_compares_lowercase items category :
  Forall (asciiCell "Category") items →
  byCategory items category
  = Some (if decide (toLowerCase category = category)
          then filter (λ i, lowerKey "Category" i = category) items
          else []).
Proof.
  intros _. unfold byCategory.
  rewrite (js_filter_total _ (λ i, String.eqb (lowerKey "Category" i) category)).
  2:{ apply Forall_forall. intros i _. by rewrite js_or_getField. }
  f_equal. case_decide as Hlow.
  - apply list_filter_iff. intros i.
    destruct (String.eqb_spec (lowerKey "Category" i) category);
      split; done.
  - induction items as [|i items IH]; [done|].
    rewrite filter_cons, IH.
    destruct (String.eqb_spec (lowerKey "Category" i) category) as [Heq|];
      [|done].
    destruct Hlow. rewrite <- Heq. apply toLowerCase_idemp.
Qed.

Lemma byCategory_compares_lowercase_witness :
  Forall (asciiCell "Category") [vitalityBooster; itemA; diligence]
  ∧ byCategory [vitalityBooster; itemA; diligence] "weapon"
    = Some (if decide (toLowerCase "weapon" = "weapon")
            then filter (λ i, lowerKey "Category" i = "weapon")
                   [vitalityBooster; itemA; diligence]
            else []).
Proof.
  assert (Forall (asciiCell "Category") [vitalityBooster; itemA; diligence])
    as H.
  { apply (bool_decide_unpack _). vm_compute. exact I. }
  split; [exact H|].
  exact (byCategory_compares_lowercase [vitalityBooster; itemA; diligence]
           "weapon" H).
Defined.

(** X16. [pickRandom] makes one random call; on a non-empty array it returns
    one of its elements, on the empty array [undefined]. *)
Theorem pickRandom_member {A} rng (arr : list A) cur :
  (pickRandom rng arr cur).2 = S cur
  ∧ match (pickRandom rng arr cur).1 with
    | Some x => x ∈ arr
    | None => arr = []
    end.
Proof.
  split; [done|]. unfold pickRandom. simpl.
  destruct arr as [|a arr]; [done|].
  destruct (randomIndex_lookup rng (a :: arr) cur) as [x Hx]; [done|].
  rewrite Hx. by eapply list_elem_of_lookup_2.
Qed.

(** ** app.js: the pools *)

Lemma categoryIs_Some c r :
  hasCategory r → categoryIs c r = Some (fieldIs "Category" c r).
Proof.
  intros [s Hs]. unfold categoryIs, getField, fieldIs. by rewrite Hs.
Qed.

Lemma categoryIs_None c r : ¬ hasCategory r → categoryIs c r = None.
Proof.
  intros Hr. unfold categoryIs, getField.
  destruct (fields r !! "Category") eqn:Hs; [|done].
  destruct Hr. by eexists.
Qed.

Lemma typeIs_Some t w : t ≠ "" → typeIs t w = Some (fieldIs "Type" t w).
Proof.
  intros Ht. unfold typeIs. rewrite js_or_getField. simpl.
  by rewrite fieldIs_default.
Qed.

Lemma partitionRows_ok rows :
  Forall hasCategory rows → partitionRows rows = Some (poolsOf rows).
Proof.
  intros Hall. unfold partitionRows.
  assert (∀ c, js_filter (categoryIs c) rows
               = Some (filter (fieldIs "Category" c) rows)) as Hcat.
  { intros c. apply js_filter_total.
    eapply Forall_impl; [exact Hall|]. intros r Hr. by apply categoryIs_Some. }
  assert (∀ t l, t ≠ "" → js_filter (typeIs t) l
                          = Some (filter (fieldIs "Type" t) l)) as Htype.
  { intros t l Ht. apply js_filter_total, Forall_forall.
    intros w _. by apply typeIs_Some. }
  rewrite !Hcat. simpl.
  rewrite !Htype by done. simpl.
  by rewrite !filter_filter_andb.
Qed.

Lemma partitionRows_throws rows :
  ¬ Forall hasCategory rows → partitionRows rows = None.
Proof.
  intros Hall. unfold partitionRows.
  apply not_Forall_Exists in Hall; [|apply _].
  rewrite (js_filter_throws (categoryIs "weapon") rows); [done|].
  eapply Exists_impl; [exact Hall|]. intros r Hr. by apply categoryIs_None.
Qed.

(** X17. The partition of the rows in [main] throws exactly when some row has
    no [Category] cell. Otherwise each pool holds, in file order, the rows
    of its category ("weapon" also filtered by [Type], "strategem",
    "booster"), compared in lower case. *)
Theorem partitionRows_pools rows :
  partitionRows rows
  = if decide (Forall hasCategory rows) then Some (poolsOf rows) else None.
Proof.
  case_decide as Hall.
  - by apply partitionRows_ok.
  - by apply partitionRows_throws.
Qed.

(** X18. Loading the data: on ASCII text with a header line, [parseCsv]
    returns rows, and the partition of [main] then throws exactly when the
    header has no [Category] column and there is at least one row. *)
Theorem csv_rows_partition text header lines :
  asciiText text →
  splitCsvLines (trim text) = header :: lines →
  ∃ rows,
    parseCsv text = Some rows
    ∧ (partitionRows rows = None
       ↔ ("Category" ∉ parseCsvRow header) ∧ lines ≠ []).
Proof.
  intros _ Hlines. unfold parseCsv. rewrite Hlines. eexists. split; [done|].
  set (rows := imap _ lines).
  assert (∀ r, r ∈ rows →
               hasCategory r ↔ "Category" ∈ parseCsvRow header) as Hrows.
  { intros r (k & Hk)%list_elem_of_lookup. unfold rows in Hk.
    rewrite list_lookup_imap in Hk.
    destruct (lines !! k) as [line|]; [|done]. injection Hk as <-.
    unfold hasCategory. simpl.
    rewrite <- elem_of_dom, fillRow_dom, dom_empty_L, elem_of_empty.
    split; [tauto|]. intros H. right. split; [done | discriminate]. }
  destruct (decide (Forall hasCategory rows)) as [Hall|Hall].
  - rewrite (partitionRows_ok _ Hall).
    split; [done|]. intros [Hno Hne].
    destruct lines as [|line lines]; [done|].
    apply Forall_cons in Hall as [Hr _].
    apply Hrows in Hr; [done | left].
  - rewrite (partitionRows_throws _ Hall).
    split; [intros _ | done].
    apply not_Forall_Exists in Hall; [|apply _].
    apply Exists_exists in Hall as (r & Hr & Hcat).
    split; [by rewrite <- (Hrows r Hr)|].
    intros ->. by apply elem_of_nil in Hr.
Qed.

Lemma csv_rows_partition_witness :
  asciiText sampleCsv
  ∧ splitCsvLines (trim sampleCsv) = ["Name,Category"; "Diligence,Weapon"]
  ∧ ∃ rows,
      parseCsv sampleCsv = Some rows
      ∧ (partitionRows rows = None
         ↔ ("Category" ∉ parseCsvRow "Name,Category")
           ∧ ["Diligence,Weapon"] ≠ []).
Proof.
  assert (asciiText sampleCsv) as H0.
  { apply (bool_decide_unpack _). vm_compute. exact I. }
  assert (splitCsvLines (trim sampleCsv)
          = ["Name,Category"; "Diligence,Weapon"]) as H by reflexivity.
  split; [exact H0|]. split; [exact H|].
  exact (csv_rows_partition sampleCsv _ _ H0 H).
Defined.

(** ** slot.js: the image fallback *)

Lemma hasChar_app c s t : hasChar c (s +:+ t) = hasChar c s || hasChar c t.
Proof.
  induction s as [|d s IH]; [done|].
  rewrite string_app_cons. simpl. by rewrite IH, orb_assoc.
Qed.

(** X19. The name written into the placeholder markup holds no [<]. *)
Theorem escapeName_no_lt name : hasChar "<" (escapeName name) = false.
Proof.
  unfold escapeName. generalize (replaceAll "&" "&amp;" name). intros s.
  induction s as [|c s IH]; [done|]. cbn [replaceAll].
  destruct (Ascii.eqb_spec c "<") as [->|Hc].
  - rewrite hasChar_app, IH. reflexivity.
  - simpl. by rewrite IH, (ascii_eqb_false _ _ Hc).
Qed.

Lemma js_or_default x k d :
  d ≠ "" →
  js_String (js_or (getField x k) (JStr d))
  = match fields x !! k with Some (String c s) => String c s | _ => d end.
Proof.
  intros Hd. unfold js_or, getField.
  destruct (fields x !! k) as [[|c s]|]; done.
Qed.

Lemma second_image_test item :
  js_truthy (JStr (js_String (js_or (getField item "Image Link") (JStr ""))))
  && negb (bool_decide
             (JStr (js_String (js_or (getField item "Image Link") (JStr "")))
              = js_or (getField item "Resized Image Path")
                      (getField item "Image Link")))
  = hasSecondImage item.
Proof.
  unfold hasSecondImage, js_or, getField.
  destruct (fields item !! "Image Link") as [[|c link]|];
    destruct (fields item !! "Resized Image Path") as [[|c' resized]|];
    cbn; try done.
  - by rewrite bool_decide_true.
  - change (if Ascii.eqb c c' then String.eqb link resized else false)
      with (String.eqb (String c link) (String c' resized)).
    destruct (String.eqb_spec (String c link) (String c' resized)) as [Heq|Hne].
    + by rewrite Heq, bool_decide_true.
    + rewrite bool_decide_false; [done|]. congruence.
  - by rewrite bool_decide_true.
Qed.

Lemma fireError_idle r : onerror r = None → fireError r = r.
Proof. intros Hr. unfold fireError. by rewrite Hr. Qed.

Lemma fireError_iter_idle r k :
  onerror r = None → Nat.iter k fireError r = r.
Proof.
  intros Hr. induction k as [|k IH]; [done|].
  simpl. rewrite IH. by apply fireError_idle.
Qed.

Lemma fireError_render r item :
  fireError (_render r item)
  = let name := js_String (js_or (getField item "Name") (JStr "")) in
    if hasSecondImage item
    then mkReel (SrcValue (JStr (default "" (fields item !! "Image Link"))))
           name "1" (onerror (_render r item)) name
    else mkReel (SrcPlaceholder (escapeName (placeholderName item)))
           name "0" None name.
Proof.
  assert (js_String (js_or (getField item "Name") (JStr "Unknown"))
          = placeholderName item) as Hname by (by rewrite js_or_default).
  unfold fireError, _render.
  cbn [onerror triedFallback h_original h_imgPath h_name alt textContent].
  rewrite String.eqb_refl. cbn [andb].
  rewrite second_image_test, Hname.
  by rewrite js_or_getField.
Qed.

(** X20. The image fallback of [_render]: the first [error] event switches
    the image to the original link when the row has a resized path and a
    different, non-empty link, and to the placeholder otherwise; from the
    second [error] event on the image shows the placeholder and no handler
    is installed, so a broken image cannot loop. *)
Theorem render_fallback_chain r item n :
  src (fireError (_render r item))
  = (if hasSecondImage item
     then SrcValue (JStr (default "" (fields item !! "Image Link")))
     else SrcPlaceholder (escapeName (placeholderName item)))
  ∧ src (Nat.iter (S (S n)) fireError (_render r item))
    = SrcPlaceholder (escapeName (placeholderName item))
  ∧ onerror (Nat.iter (S (S n)) fireError (_render r item)) = None.
Proof.
  rewrite !Nat.iter_succ_r, fireError_render. cbn zeta.
  destruct (hasSecondImage item).
  - split; [done|].
    unfold fireError at 2 4. unfold _render.
    cbn [onerror triedFallback h_original h_imgPath h_name src].
    change (String.eqb "1" "0") with false. cbn [andb].
    rewrite fireError_iter_idle by done.
    by rewrite js_or_default.
  - split; [done|].
    rewrite (fireError_idle (mkReel _ _ _ None _)) by done.
    by rewrite fireError_iter_idle.
Qed.

(** ** slot.js: [spin] and [seed] *)

Lemma renderReels_acc els cfgs picks : ∀ j rendered,
  renderReels els cfgs picks j rendered
  = rendered ++ renderReels els cfgs picks j [].
Proof.
  induction cfgs as [|cfg cfgs IH]; intros j rendered.
  { simpl. by rewrite app_nil_r. }
  cbn [renderReels].
  destruct (mjoin (picks !! j)) as [item|]; [|apply IH].
  case_bool_decide; [|apply IH].
  rewrite IH, (IH _ ([] ++ _)). by rewrite <- app_assoc.
Qed.

Lemma scheduleReels_spec els cfgs picks : ∀ j idx timers,
  scheduleReels els cfgs picks j idx timers
  = (timers
     ++ imap (λ i kx, mkTimer (300 + (idx + i) * 200) kx.1 kx.2)
          (renderReels els cfgs picks j []),
     (idx + length (renderReels els cfgs picks j []))%nat).
Proof.
  induction cfgs as [|cfg cfgs IH]; intros j idx timers.
  { simpl. by rewrite app_nil_r, Nat.add_0_r. }
  cbn [scheduleReels renderReels].
  destruct (mjoin (picks !! j)) as [item|]; [|apply IH].
  case_bool_decide; [|apply IH].
  rewrite IH, (renderReels_acc _ _ _ _ ([] ++ _)).
  cbn [app imap length]. rewrite <- app_assoc. cbn [app].
  rewrite Nat.add_0_r. f_equal; [|lia].
  do 2 f_equal. apply imap_ext. intros i kx _. simpl. do 2 f_equal. lia.
Qed.

Lemma spin_seed_picks rng strict sourceKey cfgs source cur :
  spin_picks_strict rng strict sourceKey cfgs source cur
  = seed_picks_strict rng strict sourceKey cfgs source cur.
Proof.
  unfold spin_picks_strict, seed_picks_strict.
  destruct (strict && String.eqb sourceKey "strat"); [done|].
  by destruct (anyGroupBy cfgs).
Qed.

Lemma spinGroups_seedGroups rng strict m groups : ∀ cur rendered,
  spinGroups rng strict m groups cur (length rendered) (stagger rendered)
  = (λ rc, (stagger rc.1, rc.2)) <$> seedGroups rng strict m groups cur rendered.
Proof.
  induction groups as [|[sourceKey cfgs] groups IH]; intros cur rendered.
  { done. }
  cbn [spinGroups seedGroups].
  destruct (reelDataGet (reelData m) sourceKey) as [source|]; [|done].
  cbn [mbind option_bind]. rewrite spin_seed_picks.
  destruct (seed_picks_strict _ _ _ _ _ _) as [[picks cur']|]; [|done].
  cbn [mbind option_bind]. rewrite scheduleReels_spec.
  rewrite (renderReels_acc _ _ _ _ rendered).
  rewrite <- IH. f_equal.
  - by rewrite length_app.
  - unfold stagger. by rewrite imap_app.
Qed.

Lemma spin_via_seed rng strict m cur :
  spin rng strict m cur
  = (λ rc, (stagger rc.1, rc.2)) <$> seed rng strict m cur.
Proof.
  unfold spin, seed.
  destruct (groupReels (reelsConfig m) []) as [groups|]; [|done].
  cbn [mbind option_bind].
  apply (spinGroups_seedGroups rng strict m groups cur []).
Qed.

(** X21. [spin] and [seed] choose alike: from the same random calls [spin]
    sets a timer for exactly the reels [seed] renders, in the same order
    and with the same rows; the first fires after 300 ms and each further
    one 200 ms later, whether or not reels in between stayed empty. *)
Theorem spin_staggers_seed rng strict m cur :
  spin rng strict m cur
  = (λ rc, (stagger rc.1, rc.2)) <$> seed rng strict m cur.
Proof.
  unfold spin, seed.
  destruct (groupReels (reelsConfig m) []) as [groups|]; [|done].
  cbn [mbind option_bind].
  apply (spinGroups_seedGroups rng strict m groups cur []).
Qed.

(** *** The groups of reels *)

Lemma groups_get_set g k arr : groups_get (groups_set g k arr) k = Some arr.
Proof.
  induction g as [|[k' arr'] g IH]; simpl.
  { by rewrite String.eqb_refl. }
  destruct (String.eqb_spec k' k) as [->|Hne]; simpl.
  - by rewrite String.eqb_refl.
  - by destruct (String.eqb_spec k' k).
Qed.

Lemma groups_get_set_ne g k k' arr :
  k ≠ k' → groups_get (groups_set g k arr) k' = groups_get g k'.
Proof.
  intros Hne. induction g as [|[k0 arr0] g IH]; simpl.
  { destruct (String.eqb_spec k k'); done. }
  destruct (String.eqb_spec k0 k) as [->|Hk0]; simpl.
  - destruct (String.eqb_spec k k'); done.
  - destruct (String.eqb_spec k0 k'); [done | apply IH].
Qed.

Lemma groups_set_set g k arr arr' :
  groups_set (groups_set g k arr) k arr' = groups_set g k arr'.
Proof.
  induction g as [|[k0 arr0] g IH]; simpl.
  - by rewrite String.eqb_refl.
  - destruct (String.eqb_spec k0 k) as [->|Hne]; simpl.
    + by rewrite String.eqb_refl.
    + destruct (String.eqb_spec k0 k); [done|]. by rewrite IH.
Qed.

Lemma reelsOfSource_snoc k l c :
  reelsOfSource k (l ++ [c])
  = reelsOfSource k l ++ (if decide (reelSourceKey c = k) then [c] else []).
Proof. unfold reelsOfSource. by rewrite filter_app. Qed.

Lemma addReel_content g l c :
  (∀ k, groups_get g k = groupOf k l) →
  ∃ g', addReel g c = Some g' ∧ ∀ k, groups_get g' k = groupOf k (l ++ [c]).
Proof.
  intros Hg. unfold addReel. cbn zeta.
  set (key := reelSourceKey c).
  unfold groups_has.
  pose proof (Hg key) as Hget. unfold groupOf in Hget.
  destruct (decide (reelsOfSource key l ≠ [])) as [Hrows|Hno].
  - rewrite Hget. simpl. rewrite Hget. cbn [mbind option_bind].
    eexists. split; [reflexivity|].
    intros k. destruct (decide (key = k)) as [<-|Hne].
    + rewrite groups_get_set. unfold groupOf.
      rewrite reelsOfSource_snoc. fold key.
      rewrite (decide_True (P := key = key)) by done.
      rewrite decide_True; [done|]. by destruct (reelsOfSource key l).
    + rewrite groups_get_set_ne by done. rewrite Hg. unfold groupOf.
      rewrite reelsOfSource_snoc. fold key.
      rewrite (decide_False (P := key = k)) by done. by rewrite app_nil_r.
  - rewrite Hget. simpl. rewrite groups_get_set. cbn [mbind option_bind].
    rewrite groups_set_set. eexists. split; [reflexivity|].
    assert (reelsOfSource key l = []) as Hnil.
    { destruct (reelsOfSource key l) eqn:E; [done|]. by destruct Hno. }
    intros k. destruct (decide (key = k)) as [<-|Hne].
    + rewrite groups_get_set. unfold groupOf.
      rewrite reelsOfSource_snoc. fold key.
      rewrite (decide_True (P := key = key)) by done.
      rewrite Hnil. cbn [app]. by rewrite decide_True.
    + rewrite groups_get_set_ne by done. rewrite Hg. unfold groupOf.
      rewrite reelsOfSource_snoc. fold key.
      rewrite (decide_False (P := key = k)) by done. by rewrite app_nil_r.
Qed.

Lemma groupReels_content l : ∀ g p,
  (∀ k, groups_get g k = groupOf k p) →
  ∃ g', groupReels l g = Some g' ∧ ∀ k, groups_get g' k = groupOf k (p ++ l).
Proof.
  induction l as [|c l IH]; intros g p Hg.
  { exists g. by rewrite app_nil_r. }
  cbn [groupReels].
  destruct (addReel_content g p c Hg) as (g1 & -> & Hg1).
  cbn [mbind option_bind].
  destruct (IH g1 (p ++ [c]) Hg1) as (g' & -> & Hg').
  exists g'. split; [done|]. intros k. by rewrite Hg', <- app_assoc.
Qed.

(** X22. Grouping the reels never throws: each reel lands in the group of its
    source key ([sourceKey], or [key] when that is missing or empty), a
    group holds all the reels of its source key in configuration order, and
    no group is empty. *)
Theorem groupReels_by_source_key cfgs :
  ∃ groups,
    groupReels cfgs [] = Some groups
    ∧ ∀ k,
        groups_get groups k
        = if decide (filter (λ c, reelSourceKey c = k) cfgs ≠ [])
          then Some (filter (λ c, reelSourceKey c = k) cfgs)
          else None.
Proof.
  destruct (groupReels_content cfgs [] []) as (g & Heq & Hg).
  { intros k. unfold groupOf, reelsOfSource. rewrite filter_nil.
    by case_decide. }
  exists g. split; [done|]. intros k. by rewrite Hg.
Qed.
(** *** The two machines of [main] *)

Lemma newMachine_Some present cfgs rd m :
  newMachine present cfgs rd = Some m →
  m = mkMachine cfgs rd (list_to_set (key <$> cfgs)).
Proof. unfold newMachine. destruct (forallb _ _); congruence. Qed.

Lemma padded_lookup (items : list Item) k j :
  mjoin (((Some <$> items) ++ replicate k None) !! j) = items !! j.
Proof.
  destruct (decide (j < length items)%nat) as [Hj|Hj].
  - rewrite lookup_app_l by (by rewrite length_fmap).
    rewrite list_lookup_fmap. by destruct (items !! j).
  - rewrite lookup_app_r by (rewrite length_fmap; lia).
    rewrite (lookup_ge_None_2 items) by lia.
    destruct (replicate k None !! _) as [o|] eqn:Ho; [|done].
    by apply lookup_replicate in Ho as [-> _].
Qed.

Lemma renderReels_ext els cfgs picks picks' : ∀ j rendered,
  (∀ i, mjoin (picks !! i) = mjoin (picks' !! i)) →
  renderReels els cfgs picks j rendered = renderReels els cfgs picks' j rendered.
Proof.
  induction cfgs as [|cfg cfgs IH]; intros j rendered Hext; [done|].
  cbn [renderReels]. rewrite Hext.
  destruct (mjoin (picks' !! j)); [case_bool_decide|]; by apply IH.
Qed.

Lemma renderReels_padded els cfgs (items : list Item) k rendered :
  renderReels els cfgs ((Some <$> items) ++ replicate k None) 0 rendered
  = renderReels els cfgs (Some <$> items) 0 rendered.
Proof.
  apply renderReels_ext. intros i. rewrite padded_lookup.
  rewrite list_lookup_fmap. by destruct (items !! i).
Qed.

Lemma shown_filter_imap (f : nat → nat) rendered :
  shown <$> filter (λ t, reel t ≠ "booster")
              (imap (λ i kx, mkTimer (f i) kx.1 kx.2) rendered)
  = snd <$> filter (λ kx : string * Item, kx.1 ≠ "booster") rendered.
Proof.
  revert f. induction rendered as [|[k x] rendered IH]; intros f; [done|].
  cbn [imap]. rewrite !filter_cons. cbn [reel fst].
  case_decide; cbn [fmap list_fmap shown snd]; [f_equal|];
    apply (IH (λ i, f (S i))).
Qed.

Lemma stratagemsShown_stagger rendered :
  stratagemsShown (stagger rendered)
  = snd <$> filter (λ kx, kx.1 ≠ "booster") rendered.
Proof. apply (shown_filter_imap (λ i, (300 + i * 200)%nat)). Qed.

(** The stratagem reels and the booster reel of the second machine. *)
Lemma stratConfig_groups :
  groupReels stratConfig [] =
  Some [("strat", take 4 stratConfig); ("booster", drop 4 stratConfig)].
Proof. reflexivity. Qed.

Lemma strat_machine_spin rng strict rd cur items k items2 k2 c1 c2 :
  (length items ≤ 4)%nat → (length items2 ≤ 1)%nat →
  seed_picks_strict rng strict "strat" (take 4 stratConfig) (strat rd) cur
    = Some ((Some <$> items) ++ replicate k None, c1) →
  seed_picks_strict rng strict "booster" (drop 4 stratConfig) (booster rd) c1
    = Some ((Some <$> items2) ++ replicate k2 None, c2) →
  ∃ timers,
    spin rng strict
      (mkMachine stratConfig rd (list_to_set (key <$> stratConfig))) cur
      = Some (timers, c2)
    ∧ stratagemsShown timers = items.
Proof.
  intros Hlen Hlen2 Hstrat Hboost.
  rewrite spin_via_seed. unfold seed.
  cbn [reelsConfig]. rewrite stratConfig_groups.
  cbn [mbind option_bind seedGroups reelData reelEls].
  change (reelDataGet rd "strat") with (Some (strat rd)).
  change (reelDataGet rd "booster") with (Some (booster rd)).
  cbn [mbind option_bind]. rewrite Hstrat. cbn [mbind option_bind]. rewrite Hboost.
  cbn [mbind option_bind fmap option_fmap option_map fst snd].
  eexists. split; [reflexivity|].
  rewrite stratagemsShown_stagger, !renderReels_padded.
  destruct items as [|x1 [|x2 [|x3 [|x4 [|x5 items]]]]];
    simpl in Hlen; try lia;
    destruct items2 as [|y1 [|y2 items2]]; simpl in Hlen2; try lia;
    vm_compute; reflexivity.
Qed.

(** X23. Strict mode on the stratagem machine of [main]: whatever the data
    and the random draws, [spin] sets its timers without throwing, and the
    rows it shows on the four stratagem reels hold at most one backpack
    item and at most one non-expendable support weapon, each from a
    different entry of the stratagem pool. *)
Theorem strict_stratagem_reels rng present rd m cur :
  newMachine present stratConfig rd = Some m →
  ∃ timers cur',
    spin rng true m cur = Some (timers, cur')
    ∧ rulesHold (stratagemsShown timers) = true
    ∧ drawnFrom (strat rd) (stratagemsShown timers).
Proof.
  intros ->%newMachine_Some.
  destruct (pick_shape rng (strat rd) 4 cur)
    as (sel & c1 & items & rest & Heq & -> & Hperm & Hok & Hlen & _).
  destruct (sampleUnique_spec rng 1 (booster rd) [] c1)
    as (items2 & rest2 & Heq2 & _ & Hlen2).
  destruct (strat_machine_spin rng true rd cur items
              (Z.to_nat 4 - length items) items2 (1 - length items2) c1
              (c1 + length items2))
    as (timers & Hspin & Hshown).
  - simpl in Hlen. lia.
  - lia.
  - exact Heq.
  - unfold seed_picks_strict.
    change (String.eqb "booster" "strat") with false.
    rewrite andb_false_r.
    change (anyGroupBy (drop 4 stratConfig)) with (@None Cfg).
    change (length (drop 4 stratConfig)) with 1%nat.
    cbv iota. by rewrite Heq2.
  - exists timers. eexists. split; [exact Hspin|].
    rewrite Hshown. split; [done | by eapply drawnFrom_part].
Qed.


Lemma strict_stratagem_reels_witness :
  newMachine (list_to_set (key <$> stratConfig)) stratConfig samplePools
    = Some (stratMachine samplePools)
  ∧ ∃ timers cur',
      spin rngZero true (stratMachine samplePools) 0 = Some (timers, cur')
      ∧ rulesHold (stratagemsShown timers) = true
      ∧ drawnFrom (strat samplePools) (stratagemsShown timers).
Proof.
  assert (newMachine (list_to_set (key <$> stratConfig)) stratConfig samplePools
          = Some (stratMachine samplePools)) as H by reflexivity.
  split; [exact H|].
  exact (strict_stratagem_reels rngZero _ samplePools _ 0 H).
Defined.


(** On the sample pools the first three stratagem reels show one row of
    each subtype, the fourth stays as it is, and the booster reel shows the
    booster. *)
Lemma subtypePools_spin :
  spin rngZero false (stratMachine subtypePools) 0
  = Some ([mkTimer 300 "strat-1" eagleAirstrike;
           mkTimer 500 "strat-2" orbitalLaser;
           mkTimer 700 "strat-3" machineGunSentry;
           mkTimer 900 "booster" vitalityBooster], 7%nat).
Proof. vm_compute. reflexivity. Qed.


(** *** Where the rows on the reels come from *)

Lemma groups_set_elem g k arr kv :
  kv ∈ groups_set g k arr → kv = (k, arr) ∨ kv ∈ g.
Proof.
  induction g as [|[k' arr'] g IH]; simpl.
  { intros ->%list_elem_of_singleton. by left. }
  destruct (String.eqb_spec k' k) as [->|Hne].
  - intros [->|Hin]%elem_of_cons; [by left | right; by right].
  - intros [->|Hin]%elem_of_cons; [right; left|].
    destruct (IH Hin); [by left | right; by right].
Qed.

Lemma groups_get_elem g k arr : groups_get g k = Some arr → (k, arr) ∈ g.
Proof.
  induction g as [|[k' arr'] g IH]; simpl; [done|].
  destruct (String.eqb_spec k' k) as [->|Hne].
  - intros [= ->]. left.
  - intros H. right. auto.
Qed.

Lemma addReel_total g c : ∃ g', addReel g c = Some g'.
Proof.
  unfold addReel, groups_has. cbn zeta.
  destruct (groups_get g (reelSourceKey c)) eqn:Hget; cbn [negb].
  - rewrite Hget. cbn [mbind option_bind]. eauto.
  - rewrite groups_get_set. cbn [mbind option_bind]. eauto.
Qed.

Lemma addReel_sound all g c g' :
  groupsSound all g → c ∈ all → addReel g c = Some g' → groupsSound all g'.
Proof.
  intros Hg Hc. unfold addReel, groups_has. cbn zeta.
  set (sk := reelSourceKey c).
  destruct (groups_get g sk) as [arr|] eqn:Hget; cbn [negb].
  - rewrite Hget. cbn [mbind option_bind]. intros [= <-].
    apply groups_get_elem in Hget.
    destruct (proj1 (Forall_forall _ _) Hg _ Hget) as [_ Harr].
    apply Forall_forall. intros kv [->|Hin]%groups_set_elem.
    + cbn [fst snd]. split; [by destruct arr|].
      apply Forall_app. split; [done|]. by constructor.
    + by apply (proj1 (Forall_forall _ _) Hg).
  - rewrite groups_get_set. cbn [mbind option_bind app].
    rewrite groups_set_set. intros [= <-].
    apply Forall_forall. intros kv [->|Hin]%groups_set_elem.
    + cbn [fst snd]. split; [done|]. by constructor.
    + by apply (proj1 (Forall_forall _ _) Hg).
Qed.

Lemma groupReels_sound all l : ∀ g,
  groupsSound all g → Forall (λ c, c ∈ all) l →
  ∃ g', groupReels l g = Some g' ∧ groupsSound all g'.
Proof.
  induction l as [|c l IH]; intros g Hg Hl; [by exists g|].
  apply Forall_cons in Hl as [Hc Hl]. cbn [groupReels].
  destruct (addReel_total g c) as [g1 Hadd].
  rewrite Hadd. cbn [mbind option_bind].
  apply IH; [|done]. by eapply addReel_sound.
Qed.

(** Whichever sampler a group uses, it returns rows of the group's pool. *)
Lemma seed_picks_from_source rng strict sk cfgs source cur :
  Forall (λ c, js_String (groupByField c) ∉ protoNames) cfgs →
  ∃ picks cur',
    seed_picks_strict rng strict sk cfgs source cur = Some (picks, cur')
    ∧ Forall (λ x, x ∈ source) (nonEmpty picks).
Proof.
  intros Hplain. unfold seed_picks_strict.
  destruct (strict && String.eqb sk "strat").
  - destruct (pick_shape rng source (Z.of_nat (length cfgs)) cur)
      as (sel & cur' & items & rest & Heq & -> & Hperm & _).
    eexists _, _. split; [done|]. rewrite nonEmpty_padded.
    apply Forall_forall. intros x Hx. rewrite <- Hperm.
    apply elem_of_app. by left.
  - destruct (anyGroupBy cfgs) as [c|] eqn:Hany.
    + assert (js_String (groupByField c) ∉ protoNames) as Hf.
      { unfold anyGroupBy in Hany. apply find_some in Hany as [Hc _].
        apply (proj1 (Forall_forall _ _) Hplain), list_elem_of_In, Hc. }
      destruct (groupPicks_spec rng (js_String (groupByField c)) source
                  (length cfgs) cur Hf)
        as (xs & ks & cur' & Heq & _ & _ & _ & Hall).
      eexists _, _. split; [done|]. rewrite nonEmpty_padded.
      clear -Hall. induction Hall as [|x k xs ks [Hx _] _ IH]; by constructor.
    + destruct (sampleUnique_spec rng (length cfgs) source [] cur)
        as (items & rest & Heq & Hperm & _).
      rewrite Heq. eexists _, _. split; [done|]. cbn [app].
      rewrite nonEmpty_padded.
      apply Forall_forall. intros x Hx. rewrite <- Hperm.
      apply elem_of_app. by left.
Qed.

Lemma renderReels_from els (P : string → Item → Prop) (source : list Item)
    cfgs picks :
  Forall (λ x, x ∈ source) (nonEmpty picks) →
  (∀ c x, c ∈ cfgs → x ∈ source → P (key c) x) →
  ∀ j rendered,
    Forall (λ kx, P kx.1 kx.2) rendered →
    Forall (λ kx, P kx.1 kx.2) (renderReels els cfgs picks j rendered).
Proof.
  intros Hpicks. induction cfgs as [|cfg cfgs IH]; intros HP j rendered Hr;
    [done|].
  cbn [renderReels].
  assert (∀ c x, c ∈ cfgs → x ∈ source → P (key c) x) as HP'.
  { intros c x Hc. apply HP. by right. }
  destruct (picks !! j) as [[item|]|] eqn:Hj; cbn [mjoin option_join];
    try by apply IH.
  case_bool_decide; [|by apply IH].
  apply IH; [done|]. apply Forall_app. split; [done|].
  constructor; [|constructor]. cbn [fst snd]. apply HP; [left|].
  apply (proj1 (Forall_forall _ _) Hpicks).
  unfold nonEmpty. apply list_elem_of_omap. exists (Some item).
  split; [by eapply list_elem_of_lookup_2 | done].
Qed.

Lemma reelDataGet_plain rd k :
  k ∉ protoNames → ∃ pool, reelDataGet rd k = Some pool.
Proof.
  intros Hk. unfold reelDataGet.
  repeat (destruct (String.eqb k _); [eauto|]).
  rewrite bool_decide_false by done. eauto.
Qed.

Lemma seedGroups_own_pool rng strict m groups : ∀ cur rendered,
  plainConfig (reelsConfig m) →
  groupsSound (reelsConfig m) groups →
  Forall (λ kx, ownPool m kx.1 kx.2) rendered →
  ∃ shownReels cur',
    seedGroups rng strict m groups cur rendered = Some (shownReels, cur')
    ∧ Forall (λ kx, ownPool m kx.1 kx.2) shownReels.
Proof.
  intros cur rendered Hplain. revert cur rendered.
  induction groups as [|[sk cfgs] groups IH]; intros cur rendered Hg Hr.
  { eexists _, _. split; [done | done]. }
  apply Forall_cons in Hg as [[Hcfgs0 Hcfgs] Hg]. cbn [fst snd] in Hcfgs0, Hcfgs.
  cbn [seedGroups].
  destruct cfgs as [|c0 cfgs0]; [done|].
  destruct (proj1 (Forall_forall _ _) Hcfgs c0 (list_elem_of_here _ _))
    as [Hc0 Hsk0].
  destruct (reelDataGet_plain (reelData m) sk) as [pool Hpool].
  { rewrite <- Hsk0. by apply (proj1 (Forall_forall _ _) Hplain c0). }
  rewrite Hpool. cbn [mbind option_bind].
  destruct (seed_picks_from_source rng strict sk (c0 :: cfgs0) pool cur)
    as (picks & cur' & -> & Hpicks).
  { apply Forall_forall. intros c Hc.
    destruct (proj1 (Forall_forall _ _) Hcfgs c Hc) as [Hall _].
    by apply (proj1 (Forall_forall _ _) Hplain c). }
  cbn [mbind option_bind]. apply IH; [done|].
  eapply renderReels_from; [exact Hpicks | | done].
  intros c x Hc Hx.
  destruct (proj1 (Forall_forall _ _) Hcfgs c Hc) as [Hall Hsk].
  exists c, pool. by rewrite Hsk.
Qed.

(** X25. For every machine, mode and sequence of random draws [spin] sets its
    timers without throwing, and every timer shows, on a reel of the
    configuration, a row of the pool that reel draws from. *)
Theorem spin_shows_rows_of_own_pool rng strict m cur :
  plainConfig (reelsConfig m) →
  ∃ timers cur',
    spin rng strict m cur = Some (timers, cur')
    ∧ Forall (λ t, ownPool m (reel t) (shown t)) timers.
Proof.
  intros Hplain. rewrite spin_via_seed. unfold seed.
  destruct (groupReels_sound (reelsConfig m) (reelsConfig m) [])
    as (groups & -> & Hg).
  { constructor. }
  { by apply Forall_forall. }
  cbn [mbind option_bind].
  destruct (seedGroups_own_pool rng strict m groups cur [] Hplain Hg)
    as (shownReels & cur' & -> & Hown); [constructor|].
  eexists _, _. split; [done|]. cbn [fst].
  unfold stagger. apply Forall_forall.
  intros t (i & Hi)%list_elem_of_lookup.
  rewrite list_lookup_imap in Hi.
  destruct (shownReels !! i) as [kx|] eqn:Hkx; [|done].
  injection Hi as <-. cbn [reel shown].
  apply (proj1 (Forall_forall _ _) Hown). by eapply list_elem_of_lookup_2.
Qed.

Lemma spin_shows_rows_of_own_pool_witness :
  plainConfig (reelsConfig (stratMachine samplePools))
  ∧ ∃ timers cur',
      spin rngZero true (stratMachine samplePools) 0 = Some (timers, cur')
      ∧ Forall (λ t, ownPool (stratMachine samplePools) (reel t) (shown t))
          timers.
Proof.
  assert (plainConfig (reelsConfig (stratMachine samplePools))) as H.
  { apply (bool_decide_unpack _). vm_compute. exact I. }
  split; [exact H|].
  exact (spin_shows_rows_of_own_pool rngZero true (stratMachine samplePools) 0 H).
Defined.
